(** * ai-commit: a shallow embedding of [ai-commit.go]

    The program reads the staged git diff, formats a prompt from a fixed
    template, sends it to a text-generation service while a spinner runs
    on the error stream, and prints the answer.

    Go strings are byte strings and are embedded as [string] (a list of
    8-bit characters); a non-ASCII character of the source text occupies
    its UTF-8 bytes, exactly as in the compiled Go program.  Integers of
    the library code ([rune], [int], [uint8]) are embedded in [Z].

    The collaborators the program talks to (environment, argument vector,
    child processes, the generation service, the clock of the logger, the
    ticker of the spinner) are the fields of a [World] record.  [main] is
    written in a small monad that threads the list of observable events
    and stops at [os.Exit]. *)

From Stdlib Require Import ZArith Ascii String List Lia.
From stdpp Require Import base decidable option list strings gmap.

#[local] Set Warnings "-clear-no-such-hyp".

Local Open Scope string_scope.
Local Open Scope Z_scope.
Local Open Scope list_scope.

(** ** Byte strings *)

Definition byte (c : ascii) : Z := Z.of_N (N_of_ascii c).

Definition len (s : string) : Z := Z.of_nat (String.length s).

(** [s[i]] for an index inside the string; Go panics outside of it, which
    the callers below never do, so the default is never observed. *)
Definition at_ (s : string) (i : Z) : Z :=
  match String.get (Z.to_nat i) s with
  | Some c => byte c
  | None => 0
  end.

(** [s[i:j]] for [0 <= i <= j <= len(s)]. *)
Definition slice (s : string) (i j : Z) : string :=
  String.substring (Z.to_nat i) (Z.to_nat (j - i)) s.

Definition lf : ascii := ascii_of_nat 10.
Definition LF : string := String lf "".
Definition CR : string := String (ascii_of_nat 13) "".

(** ** Package [unicode/utf8] *)

Module utf8.

Definition RuneError : Z := 0xFFFD.
Definition RuneSelf : Z := 0x80.
Definition UTFMax : Z := 4.

Definition maskx : Z := 0x3F.
Definition mask2 : Z := 0x1F.
Definition mask3 : Z := 0x0F.
Definition mask4 : Z := 0x07.

Definition locb : Z := 0x80.
Definition hicb : Z := 0xBF.

Definition xx : Z := 0xF1.
Definition as_ : Z := 0xF0.
Definition s1 : Z := 0x02.
Definition s2 : Z := 0x13.
Definition s3 : Z := 0x03.
Definition s4 : Z := 0x23.
Definition s5 : Z := 0x34.
Definition s6 : Z := 0x04.
Definition s7 : Z := 0x44.

(** The table [first]: information about the first byte of an encoding. *)
Definition first (b : Z) : Z :=
  if b <? 0x80 then as_
  else if b <? 0xC2 then xx
  else if b <? 0xE0 then s1
  else if b =? 0xE0 then s2
  else if b <? 0xED then s3
  else if b =? 0xED then s4
  else if b <? 0xF0 then s3
  else if b =? 0xF0 then s5
  else if b <? 0xF4 then s6
  else if b =? 0xF4 then s7
  else xx.

(** The table [acceptRanges], indexed by the high nibble of [first]. *)
Definition acceptRanges (i : Z) : Z * Z :=
  if i =? 1 then (0xA0, hicb)
  else if i =? 2 then (locb, 0x9F)
  else if i =? 3 then (0x90, hicb)
  else if i =? 4 then (locb, 0x8F)
  else (locb, hicb).

Definition DecodeRuneInString (s : string) : Z * Z :=
  let n := len s in
  if n <? 1 then (RuneError, 0) else
  let s0 := at_ s 0 in
  let x := first s0 in
  if x >=? as_ then
    ((if x =? xx then RuneError else s0), 1)
  else
  let sz := Z.land x 7 in
  let accept := acceptRanges (Z.shiftr x 4) in
  if n <? sz then (RuneError, 1) else
  let b1 := at_ s 1 in
  if (b1 <? fst accept) || (snd accept <? b1) then (RuneError, 1) else
  if sz <=? 2 then
    (Z.lor (Z.shiftl (Z.land s0 mask2) 6) (Z.land b1 maskx), 2)
  else
  let b2 := at_ s 2 in
  if (b2 <? locb) || (hicb <? b2) then (RuneError, 1) else
  if sz <=? 3 then
    (Z.lor (Z.lor (Z.shiftl (Z.land s0 mask3) 12)
                  (Z.shiftl (Z.land b1 maskx) 6))
           (Z.land b2 maskx), 3)
  else
  let b3 := at_ s 3 in
  if (b3 <? locb) || (hicb <? b3) then (RuneError, 1) else
  (Z.lor (Z.lor (Z.lor (Z.shiftl (Z.land s0 mask4) 18)
                       (Z.shiftl (Z.land b1 maskx) 12))
                (Z.shiftl (Z.land b2 maskx) 6))
         (Z.land b3 maskx), 4).

Definition RuneStart (b : Z) : bool := negb (Z.land b 0xC0 =? 0x80).

(** The backward scan of [DecodeLastRuneInString]:
    [for start--; start >= lim; start-- { if RuneStart(s[start]) { break } }].
    It visits at most [UTFMax - 1] positions. *)
Fixpoint scanBack (fuel : nat) (s : string) (start lim : Z) : Z :=
  match fuel with
  | O => start
  | S fuel' =>
      if start <? lim then start
      else if RuneStart (at_ s start) then start
      else scanBack fuel' s (start - 1) lim
  end.

Definition DecodeLastRuneInString (s : string) : Z * Z :=
  let end_ := len s in
  if end_ =? 0 then (RuneError, 0) else
  let start := end_ - 1 in
  let r := at_ s start in
  if r <? RuneSelf then (r, 1) else
  let lim := Z.max 0 (end_ - UTFMax) in
  let start := scanBack (Z.to_nat UTFMax) s (start - 1) lim in
  let start := Z.max 0 start in
  let '(r, size) := DecodeRuneInString (slice s start end_) in
  if negb (start + size =? end_) then (RuneError, 1) else (r, size).

(** [RuneCountInString]: every byte that does not continue a valid
    encoding counts as one rune. *)
Fixpoint countFrom (fuel : nat) (s : string) : Z :=
  match fuel with
  | O => 0
  | S fuel' =>
      match s with
      | "" => 0
      | _ =>
          let '(_, size) := DecodeRuneInString s in
          1 + countFrom fuel' (slice s size (len s))
      end
  end.

Definition RuneCountInString (s : string) : Z :=
  countFrom (String.length s) s.

End utf8.

(** ** Package [unicode] *)

Module unicode.

Definition MaxLatin1 : Z := 0xFF.

(** The ranges of the [White_Space] table above Latin-1. *)
Definition White_Space (r : Z) : bool :=
  (r =? 0x1680) || ((0x2000 <=? r) && (r <=? 0x200A))
  || (r =? 0x2028) || (r =? 0x2029) || (r =? 0x202F)
  || (r =? 0x205F) || (r =? 0x3000).

Definition IsSpace (r : Z) : bool :=
  if (0 <=? r) && (r <=? MaxLatin1) then
    (r =? 0x09) || (r =? 0x0A) || (r =? 0x0B) || (r =? 0x0C)
    || (r =? 0x0D) || (r =? 0x20) || (r =? 0x85) || (r =? 0xA0)
  else White_Space r.

End unicode.

(** ** Package [strings] *)

Module strings.

(** The table [asciiSpace]. *)
Definition asciiSpace (c : Z) : bool :=
  (c =? 0x09) || (c =? 0x0A) || (c =? 0x0B) || (c =? 0x0C)
  || (c =? 0x0D) || (c =? 0x20).

(** [for i, r := range s { if f(r) == truth { return i } }; return -1] *)
Fixpoint indexFuncFrom (fuel : nat) (s : string) (f : Z -> bool)
    (truth : bool) (i : Z) : Z :=
  match fuel with
  | O => -1
  | S fuel' =>
      if len s <=? i then -1 else
      let '(r, size) := utf8.DecodeRuneInString (slice s i (len s)) in
      if Bool.eqb (f r) truth then i
      else indexFuncFrom fuel' s f truth (i + size)
  end.

Definition indexFunc (s : string) (f : Z -> bool) (truth : bool) : Z :=
  indexFuncFrom (String.length s) s f truth 0.

(** [for i := len(s); i > 0; { r, size := DecodeLastRuneInString(s[0:i]);
    i -= size; if f(r) == truth { return i } }; return -1] *)
Fixpoint lastIndexFuncFrom (fuel : nat) (s : string) (f : Z -> bool)
    (truth : bool) (i : Z) : Z :=
  match fuel with
  | O => -1
  | S fuel' =>
      if i <=? 0 then -1 else
      let '(r, size) := utf8.DecodeLastRuneInString (slice s 0 i) in
      let i := i - size in
      if Bool.eqb (f r) truth then i
      else lastIndexFuncFrom fuel' s f truth i
  end.

Definition lastIndexFunc (s : string) (f : Z -> bool) (truth : bool) : Z :=
  lastIndexFuncFrom (String.length s) s f truth (len s).

Definition TrimLeftFunc (s : string) (f : Z -> bool) : string :=
  let i := indexFunc s f false in
  if i =? -1 then "" else slice s i (len s).

Definition TrimRightFunc (s : string) (f : Z -> bool) : string :=
  let i := lastIndexFunc s f false in
  let i :=
    if (0 <=? i) && (utf8.RuneSelf <=? at_ s i) then
      i + snd (utf8.DecodeRuneInString (slice s i (len s)))
    else i + 1 in
  slice s 0 i.

Definition TrimFunc (s : string) (f : Z -> bool) : string :=
  TrimRightFunc (TrimLeftFunc s f) f.

(** First loop of [TrimSpace]: the index of the first byte that is not
    an ASCII space ([inr]), or of a non-ASCII byte met before ([inl]). *)
Fixpoint scanStart (fuel : nat) (s : string) (start : Z) : Z + Z :=
  match fuel with
  | O => inr start
  | S fuel' =>
      if len s <=? start then inr start else
      let c := at_ s start in
      if utf8.RuneSelf <=? c then inl start
      else if negb (asciiSpace c) then inr start
      else scanStart fuel' s (start + 1)
  end.

(** Second loop of [TrimSpace], from the end down to [start]. *)
Fixpoint scanStop (fuel : nat) (s : string) (start stop : Z) : Z + Z :=
  match fuel with
  | O => inr stop
  | S fuel' =>
      if stop <=? start then inr stop else
      let c := at_ s (stop - 1) in
      if utf8.RuneSelf <=? c then inl stop
      else if negb (asciiSpace c) then inr stop
      else scanStop fuel' s start (stop - 1)
  end.

Definition TrimSpace (s : string) : string :=
  match scanStart (String.length s) s 0 with
  | inl start => TrimFunc (slice s start (len s)) unicode.IsSpace
  | inr start =>
      match scanStop (String.length s) s start (len s) with
      | inl stop => TrimRightFunc (slice s start stop) unicode.IsSpace
      | inr stop => slice s start stop
      end
  end.

(** [Join]: the elements separated by [sep]. *)
Fixpoint Join (elems : list string) (sep : string) : string :=
  match elems with
  | [] => ""
  | [e] => e
  | e :: rest => e +:+ sep +:+ Join rest sep
  end.

Fixpoint repeat (s : string) (count : nat) : string :=
  match count with
  | O => ""
  | S n => s +:+ repeat s n
  end.

(** [Repeat] panics on a negative count; its one call site passes
    [len(message)+1+1]. *)
Definition Repeat (s : string) (count : Z) : string :=
  repeat s (Z.to_nat count).

End strings.

(** ** The process and its collaborators *)

Inductive Fd := Stdout | Stderr.

(** What a run does that can be observed from outside.  [EPrompt] is a
    ghost event: it marks the evaluation of the assignment to
    [promptText]. *)
Inductive Event :=
  | EGetenv (key : string)
  | EExec (name : string) (arg : list string)
  | EPrompt (promptText : string)
  | ENewClient (apiKey : string)
  | EGenerate (model contents : string)
  | EWrite (fd : Fd) (data : string)
  | EExit (code : Z).

(** A Go result pair [(value, err)], an [error] shown by its text. *)
Definition Result : Type := string * option string.

Record World := {
  (** the environment of the process *)
  environ : gmap string string;
  (** [os.Args] *)
  Args : list string;
  (** standard output and error of running a command to completion *)
  command : string -> list string -> Result;
  (** the header the logger derives from the current time *)
  clock : string;
  (** the error of [genai.NewClient] for an API key, if any *)
  newClient : string -> option string;
  (** the service: API key, model and contents to text or error *)
  generateContent : string -> string -> string -> Result;
  (** how often the ticker fires before the spinner sees the cancellation *)
  ticks : nat
}.

Inductive Outcome (A : Type) :=
  | Return (a : A)
  | Exited (code : Z).
Arguments Return {A} a.
Arguments Exited {A} code.

(** A computation extends the event list and either returns a value or
    has left the process. *)
Definition Run (A : Type) : Type := list Event -> list Event * Outcome A.

#[global] Instance Run_ret : MRet Run := fun A a tr => (tr, Return a).

#[global] Instance Run_bind : MBind Run := fun A B f m tr =>
  match m tr with
  | (tr', Return a) => f a tr'
  | (tr', Exited code) => (tr', Exited code)
  end.

Definition emit (e : Event) : Run unit := fun tr => (tr ++ [e], Return tt).

Definition write (fd : Fd) (data : string) : Run unit := emit (EWrite fd data).

Fixpoint writeAll (fd : Fd) (datas : list string) : Run unit :=
  match datas with
  | [] => mret tt
  | d :: rest => write fd d ;; writeAll fd rest
  end.

(** The bytes a trace wrote to a stream. *)
Fixpoint written (fd : Fd) (tr : list Event) : string :=
  match tr with
  | [] => ""
  | EWrite fd' data :: rest =>
      match fd, fd' with
      | Stdout, Stdout | Stderr, Stderr => data +:+ written fd rest
      | _, _ => written fd rest
      end
  | _ :: rest => written fd rest
  end.

(** ** Package [os] *)

Module os.

Definition Getenv (w : World) (key : string) : Run string :=
  emit (EGetenv key) ;; mret (default "" (environ w !! key)).

Definition Exit {A} (code : Z) : Run A :=
  fun tr => (tr ++ [EExit code], Exited code).

End os.

(** ** Package [os/exec]: [exec.Command(name, arg...).Output()] *)

Module exec.

Definition Output (w : World) (name : string) (arg : list string)
    : Run Result :=
  emit (EExec name arg) ;; mret (command w name arg).

End exec.

(** ** Package [fmt]

    The operands of every formatting call of the program are strings (an
    [error] operand is represented by its [Error()] text), and its formats
    use the verbs [%s] and [%v] only, without flags, width or precision.
    [doPrintf] follows the library on that fragment, including its
    diagnostics for a missing operand, a missing verb and extra operands;
    any other verb character is reported as a bad verb, which is what the
    library does for the verbs that do not apply to strings.  [plainVerbs]
    recognises the formats inside the fragment. *)

Module fmt.

Definition percent : ascii := "%"%char.

Definition extraArgs (a : list string) : string :=
  match a with
  | [] => ""
  | _ => "%!(EXTRA "
         +:+ strings.Join (map (fun x => "string=" +:+ x) a) ", " +:+ ")"
  end.

Definition printArg (verb : ascii) (x : string) : string :=
  if Ascii.eqb verb "s" || Ascii.eqb verb "v" then x
  else "%!" +:+ String verb ("(string=" +:+ x +:+ ")").

Fixpoint doPrintf (format : string) (a : list string) {struct format}
    : string :=
  match format with
  | "" => extraArgs a
  | String c rest =>
      if negb (Ascii.eqb c percent) then String c (doPrintf rest a)
      else
        match rest with
        | "" => "%!(NOVERB)" +:+ extraArgs a
        | String verb rest' =>
            if Ascii.eqb verb percent then String percent (doPrintf rest' a)
            else
              match a with
              | [] => "%!" +:+ String verb ("(MISSING)" +:+ doPrintf rest' [])
              | x :: a' => printArg verb x +:+ doPrintf rest' a'
              end
        end
  end.

Definition Sprintf (format : string) (a : list string) : string :=
  doPrintf format a.

(** [Sprintln] of one string operand. *)
Definition Sprintln (a : string) : string := a +:+ LF.

Fixpoint plainVerbs (format : string) : bool :=
  match format with
  | "" => true
  | String c rest =>
      if negb (Ascii.eqb c percent) then plainVerbs rest
      else
        match rest with
        | "" => false
        | String verb rest' =>
            (Ascii.eqb verb "s" || Ascii.eqb verb "v"
             || Ascii.eqb verb percent) && plainVerbs rest'
        end
  end.

(** [Println] of one string operand, on standard output. *)
Definition Println (a : string) : Run unit :=
  write Stdout (Sprintln a).

End fmt.

(** ** Package [log]

    The standard logger has the flags [LstdFlags]: every entry starts with
    the date and time of the call, rendered as ["2006/01/02 15:04:05 "],
    and ends with a newline, which [Output] adds when the message has
    none.  The rendered header is an input of the model.  [Fatal] and
    [Fatalf] write the entry and leave the process with status 1. *)

Module log.

Fixpoint endsWithLF (s : string) : bool :=
  match s with
  | "" => false
  | String c "" => Ascii.eqb c (ascii_of_nat 10)
  | String _ rest => endsWithLF rest
  end.

Definition Output (header s : string) : string :=
  header +:+ s +:+ (if endsWithLF s then "" else LF).

(** [Fatal(s)]: [Output] on the error stream, then [os.Exit(1)]. *)
Definition Fatal {A} (w : World) (s : string) : Run A :=
  write Stderr (Output (clock w) s) ;; os.Exit 1.

Definition Fatalf {A} (w : World) (format : string) (a : list string)
    : Run A :=
  Fatal w (fmt.Sprintf format a).

End log.

(** ** Package [genai] *)

Module genai.

Definition NewClient (w : World) (apiKey : string) : Run (option string) :=
  emit (ENewClient apiKey) ;; mret (newClient w apiKey).

(** [client.Models.GenerateContent(ctx, model, genai.Text(contents), nil)]
    followed, on success, by [result.Text()]. *)
Definition GenerateContent (w : World) (apiKey model contents : string)
    : Run Result :=
  emit (EGenerate model contents) ;;
  mret (generateContent w apiKey model contents).

End genai.

(** ** The program *)

Definition promptTemplate : string := "You are an AI assistant specialized in generating concise, single-line Conventional Commit messages from git diffs.
Your **sole task** is to produce a commit message.
The **primary and strongly preferred output** is a single line adhering to this exact format:
<emoji> <type>(<scope>): <short description>
e.g., 🐛 fix(parser): Correct off-by-one error in tokenization

**Body and Footer (AVOID unless absolutely CRITICAL):**
*   Only include a body or footer if the changes are exceptionally complex AND a single subject line is **demonstrably insufficient** to convey a **vital aspect** (e.g., a significant BREAKING CHANGE that cannot be summarized or hinted at, or an essential issue link).
*   **Your default behavior must be to summarize everything into the single subject line.**
*   If unavoidable, separate the body/footer with blank lines as per the specification.

Available types and their emojis (choose one for the subject line):
- feat: ✨ (A new feature)
- fix: 🐛 (A bug fix)
- docs: 📚 (Documentation only changes)
- style: 💎 (Changes that do not affect the meaning of the code)
- refactor: ♻️ (Code change that neither fixes a bug nor adds a feature)
- perf: ⚡️ (Code change that improves performance)
- test: ✅ (Adding or correcting tests)
- build: 📦 (Changes to build system or external dependencies)
- ci: ⚙️ (Changes to CI configuration)
- chore: 🧹 (Other changes not modifying src or test files)
- revert: ⏪ (Reverts a previous commit)

Guidelines for the **single subject line**:
1.  **Summarize the Core Change**: Identify the primary purpose/goal of the entire diff.
2.  **Imperative Mood**: Start with a verb (e.g., 'Add', 'Fix', 'Update', 'Refactor').
3.  **Conciseness**: Aim for 50-72 characters. Be brief but informative.
4.  **No Period**: Do not end the subject line with a period.
5.  **Scope (Optional)**: If applicable, a noun describing the affected area (e.g., 'api', 'ui', 'auth').
6.  **Emoji & Type**: Select the most fitting type and its emoji.
7.  **Focus**: Prioritize the overall *intent* and *impact*, not granular file-by-file details. Distill the essence of the changes.%s
Here is the git diff of the changes:
\\\ diff
%s
\\\ diff
Based ONLY on the diff provided, generate the commit message.
**Your response should be ONLY the commit message itself, with NO additional text, explanation, or markdown formatting surrounding it.**
**Strive for a single line. Every time.**".

(** The format of the hint paragraph (the raw string of [main]). *)
Definition hintFormat : string := "User-provided hint/context for this commit: %s
Please take this hint into account when generating the commit message.
".

Definition spinnerChars : list string :=
  ["⠋"; "⠙"; "⠹"; "⠸"; "⠼"; "⠴"; "⠦"; "⠧"; "⠇"; "⠏"].

Definition spinnerChar (i : Z) : string := nth (Z.to_nat i) spinnerChars "".

(** *** [showSpinner]

    The [select] of the loop is resolved by the scheduler: the ticker case
    is taken some number of times, then the [ctx.Done()] case.  The
    function lists the writes to the error stream for that number. *)

Definition firstFrame (message : string) : string :=
  fmt.Sprintf "%s %s" [message; spinnerChar 0].

Definition tickFrame (message : string) (i : Z) : string :=
  fmt.Sprintf (CR +:+ "%s %s") [message; spinnerChar i].

Definition eraseLine (message : string) : string :=
  fmt.Sprintf (CR +:+ "%s" +:+ CR) [strings.Repeat " " (len message + 1 + 1)].

Fixpoint spinnerLoop (message : string) (ticks : nat) (i : Z) : list string :=
  match ticks with
  | O => [eraseLine message]
  | S n =>
      let i := (i + 1) mod Z.of_nat (length spinnerChars) in
      tickFrame message i :: spinnerLoop message n i
  end.

Definition showSpinner (message : string) (ticks : nat) : list string :=
  firstFrame message :: spinnerLoop message ticks 0.

Definition geminiModel : string := "gemini-2.5-flash-preview-05-20".

(** Line 124: the status message of the spinner. *)
Definition spinnerMessage : string := fmt.Sprintf "🤖 %s" [geminiModel].

Definition revParseArgs : list string := ["rev-parse"; "--is-inside-work-tree"].

Definition diffArgs : list string :=
  ["diff"; "--staged"; "--patch"; "--unified=5"].

(** Lines 84 to 91: the value of [additionalContext]. *)
Definition additionalContext (args : list string) : string :=
  if decide (1 < length args)%nat then
    let input := strings.Join (drop 1 args) " " in
    LF +:+ fmt.Sprintf hintFormat [input]
  else "".

(** *** [main]

    The spinner task only writes to the error stream, and [main] writes
    nothing between starting it and joining it, so its writes are listed
    after the call they accompany; the interleaving itself is the subject
    of the transition system below. *)
Definition main (w : World) : Run unit :=
  geminiApiKey ← os.Getenv w "GEMINI_API_KEY";
  (if decide (geminiApiKey = "")
   then log.Fatal w "GEMINI_API_KEY environment variable is not set."
   else mret tt) ;;
  let additionalContext := additionalContext (Args w) in
  '(insideGitRepoOutput, err) ← exec.Output w "git" revParseArgs;
  match err with
  | Some e => log.Fatalf w "Error checking git repository status: %v" [e]
  | None => mret tt
  end ;;
  (if decide (strings.TrimSpace insideGitRepoOutput ≠ "true")
   then log.Fatal w "Not inside a git repository."
   else mret tt) ;;
  '(stagedDiff, err) ← exec.Output w "git" diffArgs;
  match err with
  | Some e => log.Fatalf w "Error getting staged diff: %v" [e]
  | None => mret tt
  end ;;
  (if decide (len stagedDiff = 0)
   then log.Fatal w "No staged files to commit."
   else mret tt) ;;
  let promptText :=
    fmt.Sprintf promptTemplate [additionalContext; stagedDiff] in
  emit (EPrompt promptText) ;;
  err ← genai.NewClient w geminiApiKey;
  match err with
  | Some e => log.Fatalf w "Error creating client: %v" [e]
  | None => mret tt
  end ;;
  '(result, err) ← genai.GenerateContent w geminiApiKey geminiModel promptText;
  writeAll Stderr (showSpinner spinnerMessage (ticks w)) ;;
  match err with
  | Some e => log.Fatalf w "Error generating commit message : %v" [e]
  | None => fmt.Println result
  end.

(** A run of the process: the events of [main] and the exit status, which
    is 0 when [main] returns. *)
Definition run (w : World) : list Event * Z :=
  match main w [] with
  | (tr, Return _) => (tr, 0)
  | (tr, Exited code) => (tr, code)
  end.

Definition trace (w : World) : list Event := fst (run w).
Definition exitCode (w : World) : Z := snd (run w).
Definition stdout (w : World) : string := written Stdout (trace w).
Definition stderr (w : World) : string := written Stderr (trace w).

(** ** The spinner task and the join barrier

    Lines 121 to 146 as a transition system of two tasks.  [main] adds
    one to the wait group, starts the task, calls the service, cancels the
    context, waits for the wait group and reports.  The task writes its
    first frame and then selects between the ticker and the cancellation;
    when both are ready either case may be taken.  Its deferred
    [wg.Done()] runs after [showSpinner] has returned.  Leaving the
    process stops the task. *)

Module Await.

Inductive MainPc :=
  | AtAdd | AtGo | AtCall | InCall | AtCancel | AtWait | AtReport | Gone.

Inductive SpinnerPc :=
  | NotStarted | AtFirstFrame | AtSelect | AtWgDone | Finished.

Record Conf := {
  mainPc : MainPc;
  spinnerPc : SpinnerPc;
  (** the counter of the wait group *)
  wg : Z;
  (** [spinnerCtx] is cancelled *)
  done : bool;
  (** the variable [i] of [showSpinner] *)
  i : Z;
  (** [result, err] of the call *)
  answer : Result;
  (** the writes and the exit so far *)
  out : list Event
}.

Definition initial : Conf :=
  {| mainPc := AtAdd; spinnerPc := NotStarted; wg := 0; done := false;
     i := 0; answer := ("", None); out := [] |}.

Section Steps.

Variable w : World.
Variables geminiApiKey promptText : string.

Inductive step : Conf -> Conf -> Prop :=
  (* line 126: wg.Add(1) *)
  | main_add sp n d k a o :
      step (Build_Conf AtAdd sp n d k a o)
           (Build_Conf AtGo sp (n + 1) d k a o)
  (* lines 127 to 130: the go statement *)
  | main_go n d k a o :
      step (Build_Conf AtGo NotStarted n d k a o)
           (Build_Conf AtCall AtFirstFrame n d k a o)
  (* lines 132 to 137: the call is sent ... *)
  | main_call sp n d k a o :
      step (Build_Conf AtCall sp n d k a o)
           (Build_Conf InCall sp n d k a o)
  (* ... and returns *)
  | main_called sp n d k a o :
      step (Build_Conf InCall sp n d k a o)
           (Build_Conf AtCancel sp n d k
              (generateContent w geminiApiKey geminiModel promptText) o)
  (* line 139: cancelSpinner() *)
  | main_cancel sp n d k a o :
      step (Build_Conf AtCancel sp n d k a o)
           (Build_Conf AtWait sp n true k a o)
  (* line 140: wg.Wait() returns when the counter is zero *)
  | main_wait sp d k a o :
      step (Build_Conf AtWait sp 0 d k a o)
           (Build_Conf AtReport sp 0 d k a o)
  (* lines 142 to 144 *)
  | main_fatal sp n d k result e o :
      step (Build_Conf AtReport sp n d k (result, Some e) o)
           (Build_Conf Gone sp n d k (result, Some e)
              (fst (log.Fatalf (A := unit) w
                      "Error generating commit message : %v" [e] o)))
  (* line 146 *)
  | main_println sp n d k result o :
      step (Build_Conf AtReport sp n d k (result, None) o)
           (Build_Conf Gone sp n d k (result, None)
              (fst (fmt.Println result o)))
  (* line 61 *)
  | spinner_first mp n d k a o :
      mp <> Gone ->
      step (Build_Conf mp AtFirstFrame n d k a o)
           (Build_Conf mp AtSelect n d k a
              (o ++ [EWrite Stderr (firstFrame spinnerMessage)]))
  (* lines 68 to 70: case <-ticker.C *)
  | spinner_tick mp n d k a o :
      mp <> Gone ->
      let k' := (k + 1) mod Z.of_nat (length spinnerChars) in
      step (Build_Conf mp AtSelect n d k a o)
           (Build_Conf mp AtSelect n d k' a
              (o ++ [EWrite Stderr (tickFrame spinnerMessage k')]))
  (* lines 65 to 67: case <-ctx.Done() *)
  | spinner_done mp n k a o :
      mp <> Gone ->
      step (Build_Conf mp AtSelect n true k a o)
           (Build_Conf mp AtWgDone n true k a
              (o ++ [EWrite Stderr (eraseLine spinnerMessage)]))
  (* line 128: the deferred wg.Done() *)
  | spinner_wg_done mp n d k a o :
      mp <> Gone ->
      step (Build_Conf mp AtWgDone n d k a o)
           (Build_Conf mp Finished (n - 1) d k a o).

Inductive reachable : Conf -> Prop :=
  | reach_initial : reachable initial
  | reach_step c c' : reachable c -> step c c' -> reachable c'.

End Steps.

End Await.

(** *** The run, path by path

    [outcome] lists, for each way through [main], the events and the exit
    status; [run_outcome] below proves that it is what [run] computes. *)

Definition apiKey (w : World) : string :=
  default "" (environ w !! "GEMINI_API_KEY").

Definition fatalEvents (w : World) (s : string) : list Event :=
  [EWrite Stderr (log.Output (clock w) s); EExit 1].

Definition outcome (w : World) : list Event * Z :=
  let t1 := [EGetenv "GEMINI_API_KEY"] in
  if decide (apiKey w = "") then
    (t1 ++ fatalEvents w "GEMINI_API_KEY environment variable is not set.", 1)
  else
  let t2 := t1 ++ [EExec "git" revParseArgs] in
  match command w "git" revParseArgs with
  | (_, Some e) =>
      (t2 ++ fatalEvents w
         (fmt.Sprintf "Error checking git repository status: %v" [e]), 1)
  | (insideGitRepoOutput, None) =>
  if decide (strings.TrimSpace insideGitRepoOutput ≠ "true") then
    (t2 ++ fatalEvents w "Not inside a git repository.", 1)
  else
  let t3 := t2 ++ [EExec "git" diffArgs] in
  match command w "git" diffArgs with
  | (_, Some e) =>
      (t3 ++ fatalEvents w (fmt.Sprintf "Error getting staged diff: %v" [e]), 1)
  | (stagedDiff, None) =>
  if decide (len stagedDiff = 0) then
    (t3 ++ fatalEvents w "No staged files to commit.", 1)
  else
  let promptText :=
    fmt.Sprintf promptTemplate [additionalContext (Args w); stagedDiff] in
  let t4 := t3 ++ [EPrompt promptText; ENewClient (apiKey w)] in
  match newClient w (apiKey w) with
  | Some e =>
      (t4 ++ fatalEvents w (fmt.Sprintf "Error creating client: %v" [e]), 1)
  | None =>
  let t5 := t4 ++ EGenerate geminiModel promptText
               :: map (EWrite Stderr) (showSpinner spinnerMessage (ticks w)) in
  match generateContent w (apiKey w) geminiModel promptText with
  | (_, Some e) =>
      (t5 ++ fatalEvents w
         (fmt.Sprintf "Error generating commit message : %v" [e]), 1)
  | (result, None) => (t5 ++ [EWrite Stdout (fmt.Sprintln result)], 0)
  end end end end.

(** *** The parts of the prompt

    [cutVerb] splits a format at its first verb.  The template has two
    verbs, hence three literal parts: the instructions before the hint,
    the lines that introduce the diff and open its fence, and the lines
    that close the fence and end the prompt. *)

Fixpoint cutVerb (format : string) : string * string :=
  match format with
  | "" => ("", "")
  | String c rest =>
      if Ascii.eqb c fmt.percent then
        match rest with
        | "" => ("", "")
        | String _ rest' => ("", rest')
        end
      else let cut := cutVerb rest in (String c (fst cut), snd cut)
  end.

Definition opening : string := fst (cutVerb promptTemplate).
Definition diffIntro : string := fst (cutVerb (snd (cutVerb promptTemplate))).
Definition closing : string := snd (cutVerb (snd (cutVerb promptTemplate))).

Definition diffMarker : string := "\\\ diff".
Definition diffHeading : string := "Here is the git diff of the changes:".

(** The closing part after its marker line. *)
Definition coda : string :=
  slice closing (len (LF +:+ diffMarker +:+ LF)) (len closing).

Definition hintLead : string := fst (cutVerb hintFormat).
Definition hintTrail : string := snd (cutVerb hintFormat).

(** The two blocks a prompt is made of after the instructions: the hint
    paragraph around the text of the user, and the diff between its two
    markers, followed by the closing instructions. *)
Definition hintParagraph (input : string) : string :=
  "User-provided hint/context for this commit: " +:+ input +:+ LF
  +:+ "Please take this hint into account when generating the commit message."
  +:+ LF.

Definition fencedDiff (stagedDiff : string) : string :=
  diffHeading +:+ LF +:+ diffMarker +:+ LF +:+ stagedDiff +:+ LF
  +:+ diffMarker +:+ LF +:+ coda.

(** The number of positions of [s] at which [pat] occurs. *)
Fixpoint occurrences (pat s : string) : nat :=
  match s with
  | "" => 0
  | String _ rest =>
      (if String.prefix pat s then 1 else 0) + occurrences pat rest
  end.

Fixpoint occursIn (c : ascii) (s : string) : bool :=
  match s with
  | "" => false
  | String c' rest => Ascii.eqb c c' || occursIn c rest
  end.

Fixpoint noPercent (s : string) : bool :=
  match s with
  | "" => true
  | String c rest => negb (Ascii.eqb c fmt.percent) && noPercent rest
  end.

(** *** Reading a trace *)

(** The commands a trace ran, in order. *)
Fixpoint invocations (tr : list Event) : list (string * list string) :=
  match tr with
  | [] => []
  | EExec name arg :: rest => (name, arg) :: invocations rest
  | _ :: rest => invocations rest
  end.

(** The prompts a trace composed. *)
Fixpoint composed (tr : list Event) : list string :=
  match tr with
  | [] => []
  | EPrompt p :: rest => p :: composed rest
  | _ :: rest => composed rest
  end.

(** The calls a trace made to the generation service. *)
Fixpoint generations (tr : list Event) : list (string * string) :=
  match tr with
  | [] => []
  | EGenerate model contents :: rest => (model, contents) :: generations rest
  | _ :: rest => generations rest
  end.

(** The value of [promptText] in the runs that reach line 109. *)
Definition promptText (w : World) : string :=
  fmt.Sprintf promptTemplate
    [additionalContext (Args w); fst (command w "git" diffArgs)].

(** The checks of lines 78 to 107 all pass. *)
Definition checksPass (w : World) : Prop :=
  apiKey w ≠ ""
  ∧ snd (command w "git" revParseArgs) = None
  ∧ strings.TrimSpace (fst (command w "git" revParseArgs)) = "true"
  ∧ snd (command w "git" diffArgs) = None
  ∧ fst (command w "git" diffArgs) ≠ "".

(** *** Reading a configuration of the two tasks *)

(** The frames of [ticks] turns of the loop from index [i], and the index
    after them. *)
Fixpoint tickFrames (message : string) (ticks : nat) (i : Z) : list string :=
  match ticks with
  | O => []
  | S n =>
      let i := (i + 1) mod Z.of_nat (length spinnerChars) in
      tickFrame message i :: tickFrames message n i
  end.

Fixpoint tickIndex (ticks : nat) (i : Z) : Z :=
  match ticks with
  | O => i
  | S n => tickIndex n ((i + 1) mod Z.of_nat (length spinnerChars))
  end.

(** What [main] emits at lines 142 to 146 for an answer of the service. *)
Definition reportEvents (w : World) (answer : Result) : list Event :=
  match answer with
  | (_, Some e) =>
      fatalEvents w (fmt.Sprintf "Error generating commit message : %v" [e])
  | (result, None) => [EWrite Stdout (fmt.Sprintln result)]
  end.

(** [main] is between starting the task and passing the barrier: the
    context is cancelled exactly when [main] waits. *)
Definition beforeBarrier (c : Await.Conf) : Prop :=
  (Await.mainPc c = Await.AtCall ∨ Await.mainPc c = Await.InCall
   ∨ Await.mainPc c = Await.AtCancel) ∧ Await.done c = false
  ∨ Await.mainPc c = Await.AtWait ∧ Await.done c = true.

(** The invariant of the two tasks: where the spinner task is determines
    what has been written and the counter of the wait group, and bounds
    where [main] can be. *)
Definition joinInvariant (w : World) (geminiApiKey promptText : string)
    (c : Await.Conf) : Prop :=
  let frames := map (EWrite Stderr) in
  match Await.spinnerPc c with
  | Await.NotStarted =>
      Await.out c = [] ∧ Await.done c = false ∧ Await.i c = 0
      ∧ (Await.mainPc c = Await.AtAdd ∧ Await.wg c = 0
         ∨ Await.mainPc c = Await.AtGo ∧ Await.wg c = 1)
  | Await.AtFirstFrame =>
      Await.out c = [] ∧ Await.i c = 0 ∧ Await.wg c = 1 ∧ beforeBarrier c
  | Await.AtSelect =>
      exists n,
        Await.out c
        = frames (firstFrame spinnerMessage :: tickFrames spinnerMessage n 0)
        ∧ Await.i c = tickIndex n 0 ∧ Await.wg c = 1 ∧ beforeBarrier c
  | Await.AtWgDone =>
      exists n,
        Await.out c = frames (showSpinner spinnerMessage n)
        ∧ Await.wg c = 1 ∧ Await.done c = true
        ∧ Await.mainPc c = Await.AtWait
  | Await.Finished =>
      exists n,
        Await.wg c = 0 ∧ Await.done c = true
        ∧ ((Await.mainPc c = Await.AtWait ∨ Await.mainPc c = Await.AtReport)
           ∧ Await.out c = frames (showSpinner spinnerMessage n)
           ∨ Await.mainPc c = Await.Gone
             ∧ Await.out c
               = frames (showSpinner spinnerMessage n)
                 ++ reportEvents w (Await.answer c))
  end
  ∧ (Await.mainPc c = Await.AtCancel ∨ Await.mainPc c = Await.AtWait
     ∨ Await.mainPc c = Await.AtReport ∨ Await.mainPc c = Await.Gone ->
     Await.answer c
     = generateContent w geminiApiKey geminiModel promptText).

(** The configuration after the join and the report, for a number of
    ticks. *)
Definition joined (w : World) (geminiApiKey promptText : string) (n : nat)
    : Await.Conf :=
  let answer := generateContent w geminiApiKey geminiModel promptText in
  {| Await.mainPc := Await.Gone; Await.spinnerPc := Await.Finished;
     Await.wg := 0; Await.done := true; Await.i := tickIndex n 0;
     Await.answer := answer;
     Await.out := map (EWrite Stderr) (showSpinner spinnerMessage n)
                  ++ reportEvents w answer |}.

(** *** Worlds for the scenarios of the specification *)

Definition git (inside staged : Result) (name : string) (arg : list string)
    : Result :=
  if decide (name = "git" ∧ arg = revParseArgs) then inside
  else if decide (name = "git" ∧ arg = diffArgs) then staged
  else ("", Some "exec: not found").

Definition world (env : gmap string string) (args : list string)
    (inside staged : Result) (reply : Result) : World :=
  {| environ := env; Args := args; command := git inside staged;
     clock := "2025/06/01 12:00:00 "; newClient := fun _ => None;
     generateContent := fun _ _ _ => reply; ticks := 3 |}.

Definition credential : gmap string string := {[ "GEMINI_API_KEY" := "secret" ]}.

Definition insideTree : Result := ("true" +:+ LF, None).

Definition fooBar : Result := ("+foo" +:+ LF +:+ "-bar" +:+ LF, None).

Definition scenarioA : World :=
  world credential ["ai-commit"] insideTree fooBar
    ("✨ feat(core): add foo", None).

Definition scenarioB : World :=
  world credential ["ai-commit"] insideTree ("", None)
    ("✨ feat(core): add foo", None).

Definition scenarioC : World :=
  world ∅ ["ai-commit"] insideTree fooBar ("✨ feat(core): add foo", None).

Definition scenarioD : World :=
  world credential ["ai-commit"] insideTree fooBar
    ("", Some "googleapi: Error 429: quota exceeded").

Definition withHint : World :=
  world credential ["ai-commit"; "fix"; "the parser"] insideTree fooBar
    ("🐛 fix(parser): handle empty input", None).

Definition emptyArgument : World :=
  world credential ["ai-commit"; ""] insideTree fooBar
    ("✨ feat(core): add foo", None).

Definition bareRepository : World :=
  world credential ["ai-commit"] ("false" +:+ LF, None) fooBar
    ("✨ feat(core): add foo", None).

Definition joinedA : Await.Conf :=
  joined scenarioA "secret" (promptText scenarioA) 1.

(** *** Further worlds and readings *)

(** The concatenation of a list of writes. *)
Definition concatAll (l : list string) : string := foldr String.append "" l.

(** [w] with another number of ticks. *)
Definition withTicks (w : World) (n : nat) : World :=
  {| environ := environ w; Args := Args w; command := command w;
     clock := clock w; newClient := newClient w;
     generateContent := generateContent w; ticks := n |}.

(** Every byte of [s] is in the table [asciiSpace]. *)
Fixpoint allAsciiSpace (s : string) : bool :=
  match s with
  | "" => true
  | String c rest => strings.asciiSpace (byte c) && allAsciiSpace rest
  end.

(** [c] is an ASCII byte outside the table [asciiSpace]. *)
Definition plainAscii (c : Z) : Prop :=
  c < utf8.RuneSelf ∧ strings.asciiSpace c = false.

(** [core] is a contiguous part of [s]. *)
Definition partOf (core s : string) : Prop :=
  exists lead trail, s = lead +:+ core +:+ trail.

Definition revParseFails : World :=
  world credential ["ai-commit"] ("true" +:+ LF, Some "exit status 128")
    fooBar ("✨ feat(core): add foo", None).

Definition diffFails : World :=
  world credential ["ai-commit"] insideTree
    ("+foo" +:+ LF, Some "exit status 129")
    ("✨ feat(core): add foo", None).

Definition clientFails : World :=
  {| environ := credential; Args := ["ai-commit"];
     command := git insideTree fooBar; clock := "2025/06/01 12:00:00 ";
     newClient := fun _ => Some "api key not valid";
     generateContent := fun _ _ _ => ("✨ feat(core): add foo", None);
     ticks := 3 |}.

Definition paddedTrue : World :=
  world credential ["ai-commit"]
    (" " +:+ CR +:+ LF +:+ "true" +:+ CR +:+ LF, None) fooBar
    ("✨ feat(core): add foo", None).

(** * Properties *)

(** ** Strings *)

Lemma append_nil_l (a : string) : "" +:+ a = a.
Proof. reflexivity. Qed.

Lemma append_cons (c : ascii) (a b : string) :
  String c a +:+ b = String c (a +:+ b).
Proof. reflexivity. Qed.

Lemma append_assoc (a b c : string) : (a +:+ b) +:+ c = a +:+ (b +:+ c).
Proof.
  induction a as [|x a IH]; [reflexivity|].
  rewrite !append_cons. now rewrite IH.
Qed.

Lemma append_nil_r (a : string) : a +:+ "" = a.
Proof.
  induction a as [|x a IH]; [reflexivity|].
  rewrite append_cons. now rewrite IH.
Qed.

Lemma length_append (a b : string) :
  String.length (a +:+ b) = (String.length a + String.length b)%nat.
Proof.
  induction a as [|x a IH]; [reflexivity|].
  rewrite append_cons. simpl. now rewrite IH.
Qed.

Lemma len_append (a b : string) : len (a +:+ b) = len a + len b.
Proof. unfold len. rewrite length_append. lia. Qed.

Lemma len_nonneg (a : string) : 0 <= len a.
Proof. unfold len. lia. Qed.

Lemma len_zero (a : string) : len a = 0 <-> a = "".
Proof.
  unfold len. destruct a; simpl; split; intros H; try reflexivity;
    try discriminate; lia.
Qed.

(** ** Formatting *)

Lemma doPrintf_literal (lit rest : string) (a : list string) :
  noPercent lit = true ->
  fmt.doPrintf (lit +:+ rest) a = lit +:+ fmt.doPrintf rest a.
Proof.
  induction lit as [|c lit IH]; intros H; [reflexivity|].
  simpl in H. apply andb_prop in H as [Hc Hl].
  rewrite append_cons. simpl. rewrite Hc. now rewrite IH.
Qed.

Lemma doPrintf_verb_s (rest x : string) (a : list string) :
  fmt.doPrintf ("%s" +:+ rest) (x :: a) = x +:+ fmt.doPrintf rest a.
Proof. reflexivity. Qed.

Lemma doPrintf_no_verb (lit : string) :
  noPercent lit = true -> fmt.doPrintf lit [] = lit.
Proof.
  intros H. rewrite <- (append_nil_r lit) at 1.
  rewrite doPrintf_literal by assumption. simpl. apply append_nil_r.
Qed.

(** One operand in a format [before%safter]. *)
Lemma Sprintf_1 (before after x : string) :
  noPercent before = true -> noPercent after = true ->
  fmt.Sprintf (before +:+ "%s" +:+ after) [x] = before +:+ x +:+ after.
Proof.
  intros Hb Ha. unfold fmt.Sprintf.
  rewrite doPrintf_literal, doPrintf_verb_s, doPrintf_no_verb; auto.
Qed.

(** Two operands in a format [before%sbetween%safter]. *)
Lemma Sprintf_2 (before between after x y : string) :
  noPercent before = true -> noPercent between = true ->
  noPercent after = true ->
  fmt.Sprintf (before +:+ "%s" +:+ between +:+ "%s" +:+ after) [x; y]
  = before +:+ x +:+ between +:+ y +:+ after.
Proof.
  intros Hb Hm Ha. unfold fmt.Sprintf.
  rewrite doPrintf_literal, doPrintf_verb_s by assumption.
  rewrite doPrintf_literal, doPrintf_verb_s by assumption.
  rewrite doPrintf_no_verb; auto.
Qed.

(** Every format of the program stays inside the modelled fragment. *)
Lemma formats_plain :
  forallb fmt.plainVerbs
    [promptTemplate; hintFormat; "%s %s"; CR +:+ "%s %s";
     CR +:+ "%s" +:+ CR; "🤖 %s";
     "Error checking git repository status: %v";
     "Error getting staged diff: %v"; "Error creating client: %v";
     "Error generating commit message : %v"] = true.
Proof. vm_compute. reflexivity. Qed.

(** ** Runs of [main] *)

Lemma bind_ret {A B} (a : A) (f : A -> Run B) (tr : list Event) :
  (mret a ≫= f) tr = f a tr.
Proof. reflexivity. Qed.

Lemma bind_emit {B} (e : Event) (f : unit -> Run B) (tr : list Event) :
  (emit e ≫= f) tr = f tt (tr ++ [e]).
Proof. reflexivity. Qed.

Lemma bind_write {B} fd data (f : unit -> Run B) (tr : list Event) :
  (write fd data ≫= f) tr = f tt (tr ++ [EWrite fd data]).
Proof. reflexivity. Qed.

Lemma bind_Getenv {B} w key (f : string -> Run B) (tr : list Event) :
  (os.Getenv w key ≫= f) tr
  = f (default "" (environ w !! key)) (tr ++ [EGetenv key]).
Proof. reflexivity. Qed.

Lemma bind_Output {B} w name arg (f : Result -> Run B) (tr : list Event) :
  (exec.Output w name arg ≫= f) tr
  = f (command w name arg) (tr ++ [EExec name arg]).
Proof. reflexivity. Qed.

Lemma bind_NewClient {B} w key (f : option string -> Run B) tr :
  (genai.NewClient w key ≫= f) tr
  = f (newClient w key) (tr ++ [ENewClient key]).
Proof. reflexivity. Qed.

Lemma bind_GenerateContent {B} w key model contents (f : Result -> Run B) tr :
  (genai.GenerateContent w key model contents ≫= f) tr
  = f (generateContent w key model contents)
      (tr ++ [EGenerate model contents]).
Proof. reflexivity. Qed.

Lemma run_Fatal {A} w s (tr : list Event) :
  log.Fatal (A := A) w s tr = (tr ++ fatalEvents w s, Exited 1).
Proof.
  unfold log.Fatal, fatalEvents. rewrite bind_write. unfold os.Exit.
  now rewrite <- app_assoc.
Qed.

Lemma bind_Fatal {A B} w s (f : A -> Run B) (tr : list Event) :
  (log.Fatal w s ≫= f) tr = (tr ++ fatalEvents w s, Exited 1).
Proof.
  unfold mbind, Run_bind. now rewrite run_Fatal.
Qed.

Lemma bind_writeAll {B} fd datas (f : unit -> Run B) (tr : list Event) :
  (writeAll fd datas ≫= f) tr = f tt (tr ++ map (EWrite fd) datas).
Proof.
  revert tr. induction datas as [|d datas IH]; intros tr; simpl.
  - rewrite bind_ret. now rewrite app_nil_r.
  - unfold mbind at 1, Run_bind at 1. rewrite bind_write.
    specialize (IH (tr ++ [EWrite fd d])).
    unfold mbind, Run_bind in IH. rewrite IH.
    now rewrite <- app_assoc.
Qed.

Lemma run_outcome (w : World) : run w = outcome w.
Proof.
  unfold run, outcome, main.
  rewrite bind_Getenv. fold (apiKey w).
  destruct (decide (apiKey w = "")) as [Hk|Hk].
  { now rewrite bind_Fatal. }
  rewrite bind_ret, bind_Output.
  destruct (command w "git" revParseArgs) as [inside [e|]].
  { unfold log.Fatalf. now rewrite bind_Fatal. }
  rewrite bind_ret.
  destruct (decide (strings.TrimSpace inside ≠ "true")) as [Ht|Ht].
  { now rewrite bind_Fatal. }
  rewrite bind_ret, bind_Output.
  destruct (command w "git" diffArgs) as [stagedDiff [e|]].
  { unfold log.Fatalf. now rewrite bind_Fatal. }
  rewrite bind_ret.
  destruct (decide (len stagedDiff = 0)) as [Hd|Hd].
  { now rewrite bind_Fatal. }
  rewrite bind_ret, bind_emit, bind_NewClient.
  destruct (newClient w (apiKey w)) as [e|].
  { unfold log.Fatalf. rewrite bind_Fatal. now rewrite <- ?app_assoc. }
  rewrite bind_ret, bind_GenerateContent.
  destruct (generateContent w (apiKey w) geminiModel _) as [result [e|]].
  - rewrite bind_writeAll. unfold log.Fatalf. rewrite run_Fatal.
    now rewrite <- ?app_assoc.
  - rewrite bind_writeAll. unfold fmt.Println, write, emit.
    now rewrite <- ?app_assoc.
Qed.

(** ** The scenarios of the specification *)

Example scenarioA_run :
  exitCode scenarioA = 0
  ∧ stdout scenarioA = "✨ feat(core): add foo" +:+ LF
  ∧ invocations (trace scenarioA) = [("git", revParseArgs); ("git", diffArgs)]
  ∧ generations (trace scenarioA) = [(geminiModel, promptText scenarioA)].
Proof. vm_compute. repeat split. Qed.

Example scenarioB_run :
  exitCode scenarioB = 1 ∧ stdout scenarioB = ""
  ∧ stderr scenarioB
    = "2025/06/01 12:00:00 No staged files to commit." +:+ LF
  ∧ generations (trace scenarioB) = [].
Proof. vm_compute. repeat split. Qed.

Example scenarioC_run :
  exitCode scenarioC = 1 ∧ stdout scenarioC = ""
  ∧ invocations (trace scenarioC) = [].
Proof. vm_compute. repeat split. Qed.

Example scenarioD_run :
  exitCode scenarioD = 1 ∧ stdout scenarioD = ""
  ∧ stderr scenarioD
    = "🤖 gemini-2.5-flash-preview-05-20 ⠋"
      +:+ CR +:+ "🤖 gemini-2.5-flash-preview-05-20 ⠙"
      +:+ CR +:+ "🤖 gemini-2.5-flash-preview-05-20 ⠹"
      +:+ CR +:+ "🤖 gemini-2.5-flash-preview-05-20 ⠸"
      +:+ CR +:+ "                                     " +:+ CR
      +:+ "2025/06/01 12:00:00 Error generating commit message : googleapi: Error 429: quota exceeded"
      +:+ LF.
Proof. vm_compute. repeat split. Qed.

Example TrimSpace_examples :
  strings.TrimSpace ("true" +:+ LF) = "true"
  ∧ strings.TrimSpace (" " +:+ CR +:+ LF +:+ "true" +:+ CR +:+ LF) = "true"
  ∧ strings.TrimSpace ("false" +:+ LF) = "false"
  ∧ strings.TrimSpace "tr ue" = "tr ue"
  ∧ strings.TrimSpace "" = ""
  ∧ strings.TrimSpace ("　true " +:+ LF) = "true".
Proof. vm_compute. repeat split. Qed.

Example Sprintf_examples :
  fmt.Sprintf "%s %s" ["a"; "b"] = "a b"
  ∧ fmt.Sprintf "Error creating client: %v" ["no key"]
    = "Error creating client: no key"
  ∧ fmt.Sprintf "100%%" [] = "100%"
  ∧ fmt.Sprintf "%s" [] = "%!s(MISSING)"
  ∧ fmt.Sprintf "x" ["a"] = "x%!(EXTRA string=a)".
Proof. vm_compute. repeat split. Qed.

(** ** Reading the trace of a path *)

Lemma written_app (fd : Fd) (a b : list Event) :
  written fd (a ++ b) = written fd a +:+ written fd b.
Proof.
  induction a as [|e a IH]; [reflexivity|].
  destruct e; simpl; try exact IH.
  destruct fd, fd0; try exact IH; rewrite IH; now rewrite append_assoc.
Qed.

Lemma written_stdout_stderr (datas : list string) :
  written Stdout (map (EWrite Stderr) datas) = "".
Proof. induction datas; simpl; auto. Qed.

Lemma invocations_app (a b : list Event) :
  invocations (a ++ b) = invocations a ++ invocations b.
Proof.
  induction a as [|e a IH]; [reflexivity|].
  destruct e; simpl; rewrite ?IH; reflexivity.
Qed.

Lemma composed_app (a b : list Event) :
  composed (a ++ b) = composed a ++ composed b.
Proof.
  induction a as [|e a IH]; [reflexivity|].
  destruct e; simpl; rewrite ?IH; reflexivity.
Qed.

Lemma generations_app (a b : list Event) :
  generations (a ++ b) = generations a ++ generations b.
Proof.
  induction a as [|e a IH]; [reflexivity|].
  destruct e; simpl; rewrite ?IH; reflexivity.
Qed.

Lemma invocations_writes fd (datas : list string) :
  invocations (map (EWrite fd) datas) = [].
Proof. induction datas; simpl; auto. Qed.

Lemma composed_writes fd (datas : list string) :
  composed (map (EWrite fd) datas) = [].
Proof. induction datas; simpl; auto. Qed.

Lemma generations_writes fd (datas : list string) :
  generations (map (EWrite fd) datas) = [].
Proof. induction datas; simpl; auto. Qed.

(** Unfolds [run] along the path selected by the hypotheses at hand. *)
Ltac along_path :=
  unfold stdout, stderr, trace, exitCode; rewrite ?run_outcome;
  unfold outcome;
  repeat match goal with
  | H : command ?w ?n ?a = _ |- context [command ?w ?n ?a] => rewrite H
  | H : newClient ?w ?k = _ |- context [newClient ?w ?k] => rewrite H
  | |- context [decide ?P] => destruct (decide P); try contradiction
  | |- context [command ?w ?n ?a] =>
      let o := fresh "output" in let e := fresh "err" in
      destruct (command w n a) as [o [e|]]; cbn [fst snd] in *; subst;
      try discriminate; try contradiction
  | |- context [newClient ?w ?k] =>
      let e := fresh "err" in destruct (newClient w k) as [e|]
  | |- context [generateContent ?w ?k ?m ?p] =>
      let o := fresh "result" in let e := fresh "err" in
      let E := fresh "Hreply" in
      destruct (generateContent w k m p) as [o [e|]] eqn:E
  end;
  cbn [fst snd].

(** The commands of a run that passes the credential and repository
    checks. *)
Lemma invocations_past_check (w : World) :
  apiKey w ≠ "" ->
  snd (command w "git" revParseArgs) = None ->
  strings.TrimSpace (fst (command w "git" revParseArgs)) = "true" ->
  invocations (trace w) = [("git", revParseArgs); ("git", diffArgs)].
Proof.
  intros Hk He Ht. along_path.
  all: cbn [app invocations fatalEvents];
    rewrite ?invocations_app, ?invocations_writes;
    cbn [app invocations fatalEvents]; reflexivity.
Qed.

(** ** Termination before the prompt and before the network *)

(** C1. In every run in which the staged diff text that git delivers is
    empty, the process exits with status 1, no prompt is composed and no
    call to the generation service is made; when the earlier checks pass,
    the run consists of the two git invocations and the fatal message
    about nothing being staged. *)
Theorem empty_diff_is_fatal (w : World) :
  fst (command w "git" diffArgs) = "" ->
  exitCode w = 1
  ∧ composed (trace w) = []
  ∧ generations (trace w) = []
  ∧ (apiKey w ≠ "" ->
     snd (command w "git" revParseArgs) = None ->
     strings.TrimSpace (fst (command w "git" revParseArgs)) = "true" ->
     snd (command w "git" diffArgs) = None ->
     trace w = [EGetenv "GEMINI_API_KEY"; EExec "git" revParseArgs;
                EExec "git" diffArgs;
                EWrite Stderr
                  (clock w +:+ "No staged files to commit." +:+ LF);
                EExit 1]).
Proof.
  intros Hd. along_path.
  all: repeat split; intros; try discriminate; try contradiction.
Qed.

Lemma empty_diff_is_fatal_witness :
  fst (command scenarioB "git" diffArgs) = ""
  ∧ exitCode scenarioB = 1
  ∧ composed (trace scenarioB) = []
  ∧ generations (trace scenarioB) = []
  ∧ trace scenarioB
    = [EGetenv "GEMINI_API_KEY"; EExec "git" revParseArgs;
       EExec "git" diffArgs;
       EWrite Stderr
         (clock scenarioB +:+ "No staged files to commit." +:+ LF);
       EExit 1].
Proof.
  destruct (empty_diff_is_fatal scenarioB eq_refl) as (H1 & H2 & H3 & H4).
  refine (conj eq_refl (conj H1 (conj H2 (conj H3 (H4 _ _ _ _)))));
    [discriminate | reflexivity | reflexivity | reflexivity].
Defined.

(** C2. In every run in which the credential variable is unset or empty,
    the process exits with status 1 right after reading the variable: the
    run consists of the lookup, the fatal message and the exit, and git is
    not invoked, neither for the repository check nor for the diff. *)
Theorem missing_credential_is_fatal (w : World) :
  environ w !! "GEMINI_API_KEY" = None
  ∨ environ w !! "GEMINI_API_KEY" = Some "" ->
  exitCode w = 1
  ∧ invocations (trace w) = []
  ∧ trace w = [EGetenv "GEMINI_API_KEY";
               EWrite Stderr
                 (clock w
                  +:+ "GEMINI_API_KEY environment variable is not set."
                  +:+ LF);
               EExit 1].
Proof.
  intros H.
  assert (Hk : apiKey w = "") by (unfold apiKey; destruct H as [-> | ->]; reflexivity).
  along_path. repeat split.
Qed.

Lemma missing_credential_is_fatal_witness :
  exitCode scenarioC = 1
  ∧ invocations (trace scenarioC) = []
  ∧ trace scenarioC
    = [EGetenv "GEMINI_API_KEY";
       EWrite Stderr
         (clock scenarioC
          +:+ "GEMINI_API_KEY environment variable is not set." +:+ LF);
       EExit 1].
Proof.
  apply (missing_credential_is_fatal scenarioC). left. reflexivity.
Defined.

(** ** The repository check *)

(** C10. When the credential is present and [git rev-parse] succeeds, the
    run goes on to collect the diff only if the output of the command,
    trimmed of white space, is the string [true]; with any other output
    it ends with the message about not being inside a repository and
    status 1, and the only command run is the check itself. *)
Theorem repository_check_accepts_only_true (w : World) (output : string) :
  apiKey w ≠ "" ->
  command w "git" revParseArgs = (output, None) ->
  (strings.TrimSpace output ≠ "true" ->
     exitCode w = 1
     ∧ invocations (trace w) = [("git", revParseArgs)]
     ∧ trace w = [EGetenv "GEMINI_API_KEY"; EExec "git" revParseArgs;
                  EWrite Stderr
                    (clock w +:+ "Not inside a git repository." +:+ LF);
                  EExit 1])
  ∧ (strings.TrimSpace output = "true" ->
     ("git", diffArgs) ∈ invocations (trace w)).
Proof.
  intros Hk Hr. split; intros Ht.
  - along_path. repeat split.
  - rewrite invocations_past_check; try assumption.
    + apply list_elem_of_further, list_elem_of_here.
    + now rewrite Hr.
    + now rewrite Hr.
Qed.

Lemma repository_check_accepts_only_true_witness :
  exitCode bareRepository = 1
  ∧ invocations (trace bareRepository) = [("git", revParseArgs)]
  ∧ trace bareRepository
    = [EGetenv "GEMINI_API_KEY"; EExec "git" revParseArgs;
       EWrite Stderr
         (clock bareRepository +:+ "Not inside a git repository." +:+ LF);
       EExit 1].
Proof.
  destruct (repository_check_accepts_only_true bareRepository ("false" +:+ LF))
    as [H _]; [discriminate | reflexivity |].
  apply H. discriminate.
Defined.

(** ** The diff collector *)

(** C8. The only commands a run executes are, in this order, the
    repository check and [git diff --staged --patch --unified=5]; every
    run that passes the credential and repository checks executes both,
    so the diff is requested for the staged changes, as a patch, with
    five lines of context. *)
Theorem diff_collector_invocation (w : World) :
  invocations (trace w)
    `prefix_of` [("git", ["rev-parse"; "--is-inside-work-tree"]);
                 ("git", ["diff"; "--staged"; "--patch"; "--unified=5"])]
  ∧ (apiKey w ≠ "" ->
     snd (command w "git" revParseArgs) = None ->
     strings.TrimSpace (fst (command w "git" revParseArgs)) = "true" ->
     invocations (trace w)
     = [("git", ["rev-parse"; "--is-inside-work-tree"]);
        ("git", ["diff"; "--staged"; "--patch"; "--unified=5"])]).
Proof.
  split; [|apply invocations_past_check].
  along_path.
  all: cbn [app invocations fatalEvents];
    rewrite ?invocations_app, ?invocations_writes;
    cbn [app invocations fatalEvents]; try reflexivity.
  - by exists [("git", revParseArgs); ("git", diffArgs)].
  - by exists [("git", diffArgs)].
  - by exists [("git", diffArgs)].
Qed.

Lemma diff_collector_invocation_witness :
  invocations (trace scenarioA)
  = [("git", ["rev-parse"; "--is-inside-work-tree"]);
     ("git", ["diff"; "--staged"; "--patch"; "--unified=5"])].
Proof.
  destruct (diff_collector_invocation scenarioA) as [_ H].
  apply H; [discriminate | reflexivity | reflexivity].
Defined.

(** ** Standard output *)

(** The run of a world that passes the checks and obtains a client. *)
Lemma run_with_client (w : World) :
  checksPass w -> newClient w (apiKey w) = None ->
  run w
  = ([EGetenv "GEMINI_API_KEY"; EExec "git" revParseArgs;
      EExec "git" diffArgs; EPrompt (promptText w); ENewClient (apiKey w);
      EGenerate geminiModel (promptText w)]
     ++ map (EWrite Stderr) (showSpinner spinnerMessage (ticks w))
     ++ match generateContent w (apiKey w) geminiModel (promptText w) with
        | (_, Some e) =>
            fatalEvents w
              (fmt.Sprintf "Error generating commit message : %v" [e])
        | (result, None) => [EWrite Stdout (fmt.Sprintln result)]
        end,
     match generateContent w (apiKey w) geminiModel (promptText w) with
     | (_, Some _) => 1
     | (_, None) => 0
     end).
Proof.
  intros (Hk & He & Ht & Hd & Hn) Hc. unfold promptText.
  rewrite run_outcome. unfold outcome. rewrite Hc.
  destruct (decide (apiKey w = "")); [contradiction|].
  destruct (command w "git" revParseArgs) as [inside e1].
  cbn [fst snd] in *. subst e1.
  destruct (decide (strings.TrimSpace inside ≠ "true")); [contradiction|].
  destruct (command w "git" diffArgs) as [stagedDiff e2].
  cbn [fst snd] in *. subst e2.
  destruct (decide (len stagedDiff = 0)) as [Hz|Hz];
    [apply len_zero in Hz; contradiction|].
  destruct (generateContent w (apiKey w) geminiModel _) as [result [e|]];
    cbn [app]; now rewrite <- ?app_assoc.
Qed.

(** A call to the service is made only on that path. *)
Lemma generations_path (w : World) (model contents : string) :
  (model, contents) ∈ generations (trace w) ->
  model = geminiModel ∧ contents = promptText w
  ∧ checksPass w ∧ newClient w (apiKey w) = None.
Proof.
  unfold checksPass, promptText, trace. rewrite run_outcome. unfold outcome.
  destruct (decide (apiKey w = "")) as [Hk|Hk].
  { cbn. intros H. now apply elem_of_nil in H. }
  destruct (command w "git" revParseArgs) as [inside [e1|]].
  { cbn. intros H. now apply elem_of_nil in H. }
  destruct (decide (strings.TrimSpace inside ≠ "true")) as [Ht|Ht].
  { cbn. intros H. now apply elem_of_nil in H. }
  destruct (command w "git" diffArgs) as [stagedDiff [e2|]].
  { cbn. intros H. now apply elem_of_nil in H. }
  destruct (decide (len stagedDiff = 0)) as [Hz|Hz].
  { cbn. intros H. now apply elem_of_nil in H. }
  destruct (newClient w (apiKey w)) as [e3|].
  { cbn. intros H. now apply elem_of_nil in H. }
  assert (Hne : stagedDiff ≠ "") by (intros ->; now apply Hz).
  assert (Htrue : strings.TrimSpace inside = "true")
    by (destruct (decide (strings.TrimSpace inside = "true")); tauto).
  destruct (generateContent w (apiKey w) geminiModel _) as [result [e|]];
    cbn [fst snd app generations fatalEvents];
    rewrite ?generations_app, ?generations_writes;
    cbn [app generations fatalEvents]; intros H;
    apply list_elem_of_singleton in H;
    apply pair_equal_spec in H as [-> ->]; repeat split; assumption.
Qed.

Lemma failure_writes_nothing (w : World) :
  exitCode w ≠ 0 -> stdout w = "".
Proof.
  along_path; intros H; try contradiction.
  all: cbn [app fatalEvents written];
    rewrite ?written_app, ?written_stdout_stderr; reflexivity.
Qed.

(** C5. In every run in which the call to the generation service returns
    a text without error, standard output holds that text followed by one
    newline and nothing else, and the exit status is 0; in every run with
    a non-zero exit status nothing is written to standard output; and the
    exit status is 0 or 1. *)
Theorem stdout_is_the_message_or_nothing (w : World) :
  (forall model contents result,
     (model, contents) ∈ generations (trace w) ->
     generateContent w (apiKey w) model contents = (result, None) ->
     stdout w = result +:+ LF ∧ exitCode w = 0)
  ∧ (exitCode w ≠ 0 -> stdout w = "")
  ∧ (exitCode w = 0 ∨ exitCode w = 1).
Proof.
  split; [|split].
  - intros model contents result Hin Hgen.
    destruct (generations_path w model contents Hin) as (-> & -> & Hp & Hc).
    unfold stdout, exitCode, trace. rewrite (run_with_client w Hp Hc).
    rewrite Hgen. cbn [fst snd]. split; [|reflexivity].
    rewrite !written_app, written_stdout_stderr. cbn [written].
    unfold fmt.Sprintln. now rewrite append_nil_r.
  - apply failure_writes_nothing.
  - along_path; auto.
Qed.

Lemma stdout_is_the_message_or_nothing_witness :
  (stdout scenarioA = "✨ feat(core): add foo" +:+ LF ∧ exitCode scenarioA = 0)
  ∧ stdout scenarioD = "".
Proof.
  split.
  - apply (proj1 (stdout_is_the_message_or_nothing scenarioA)
             geminiModel (promptText scenarioA)).
    + vm_compute. apply list_elem_of_here.
    + reflexivity.
  - apply (proj1 (proj2 (stdout_is_the_message_or_nothing scenarioD))).
    vm_compute. discriminate.
Defined.

(** ** The prompt *)

Lemma template_parts :
  promptTemplate = opening +:+ "%s" +:+ diffIntro +:+ "%s" +:+ closing
  ∧ diffIntro = LF +:+ diffHeading +:+ LF +:+ diffMarker +:+ LF
  ∧ closing = LF +:+ diffMarker +:+ LF +:+ coda
  ∧ hintFormat = hintLead +:+ "%s" +:+ hintTrail
  ∧ hintLead = "User-provided hint/context for this commit: "
  ∧ hintTrail
    = LF +:+ "Please take this hint into account when generating the commit message."
      +:+ LF.
Proof. vm_compute. repeat split. Qed.

Lemma parts_literal :
  noPercent opening = true ∧ noPercent diffIntro = true
  ∧ noPercent closing = true ∧ noPercent hintLead = true
  ∧ noPercent hintTrail = true.
Proof. vm_compute. repeat split. Qed.

(** *** Counting occurrences *)

Lemma occursIn_cons_false (c x : ascii) (s : string) :
  occursIn c (String x s) = false -> c ≠ x ∧ occursIn c s = false.
Proof.
  simpl. intros H. apply orb_false_elim in H as [Hx Hs].
  split; [now apply Ascii.eqb_neq | assumption].
Qed.

Lemma prefix_cons_ne (c x : ascii) (p s : string) :
  c ≠ x -> String.prefix (String c p) (String x s) = false.
Proof. intros H. simpl. destruct (ascii_dec c x); [contradiction | reflexivity]. Qed.

Lemma prefix_cons_eq (c : ascii) (p s : string) :
  String.prefix (String c p) (String c s) = String.prefix p s.
Proof. simpl. destruct (ascii_dec c c); [reflexivity | contradiction]. Qed.

Lemma prefix_self (pat s : string) : String.prefix pat (pat +:+ s) = true.
Proof.
  induction pat as [|c pat IH]; [now destruct s|].
  rewrite append_cons, prefix_cons_eq. exact IH.
Qed.

(** An occurrence of [pat] cannot reach across a character that [pat]
    does not contain. *)
Lemma prefix_append_sep (sep : ascii) (pat a b : string) :
  occursIn sep pat = false ->
  String.prefix pat (a +:+ String sep b) = String.prefix pat a.
Proof.
  revert pat. induction a as [|x a IH]; intros pat Hsep.
  - destruct pat as [|c pat]; [reflexivity|].
    apply occursIn_cons_false in Hsep as [Hc _].
    rewrite append_nil_l. rewrite prefix_cons_ne by congruence. reflexivity.
  - destruct pat as [|c pat]; [reflexivity|].
    apply occursIn_cons_false in Hsep as [_ Hp].
    rewrite append_cons.
    destruct (ascii_dec c x) as [->|Hne].
    + rewrite !prefix_cons_eq. now apply IH.
    + now rewrite !prefix_cons_ne.
Qed.

Lemma occurrences_sep (sep : ascii) (pat a b : string) :
  occursIn sep pat = false -> pat ≠ "" ->
  occurrences pat (a +:+ String sep b)
  = (occurrences pat a + occurrences pat b)%nat.
Proof.
  intros Hsep Hne. induction a as [|x a IH].
  - rewrite append_nil_l. destruct pat as [|c pat]; [contradiction|].
    apply occursIn_cons_false in Hsep as [Hc _].
    cbn [occurrences]. rewrite prefix_cons_ne by congruence. reflexivity.
  - rewrite append_cons. cbn [occurrences]. rewrite IH.
    rewrite <- append_cons, prefix_append_sep by assumption. lia.
Qed.

Lemma occurrences_skip (c : ascii) (p r s : string) :
  occursIn c r = false ->
  occurrences (String c p) (r +:+ s) = occurrences (String c p) s.
Proof.
  induction r as [|x r IH]; intros H; [reflexivity|].
  apply occursIn_cons_false in H as [Hx Hr].
  rewrite append_cons. cbn [occurrences].
  rewrite prefix_cons_ne by assumption. now rewrite IH.
Qed.

(** A pattern whose first character does not come back in it occurs once
    in itself. *)
Lemma occurrences_lead (c : ascii) (p s : string) :
  occursIn c p = false ->
  occurrences (String c p) (String c p +:+ s)
  = S (occurrences (String c p) s).
Proof.
  intros H. rewrite append_cons. cbn [occurrences].
  rewrite <- append_cons, prefix_self, occurrences_skip by assumption.
  reflexivity.
Qed.

Lemma occurrences_Join (pat : string) (lines : list string) :
  occursIn lf pat = false -> pat ≠ "" ->
  occurrences pat (strings.Join lines LF)
  = foldr Nat.add 0%nat (map (occurrences pat) lines).
Proof.
  intros Hlf Hne. induction lines as [|l lines IH]; [reflexivity|].
  destruct lines as [|l' lines]; [simpl; lia|].
  change (strings.Join (l :: l' :: lines) LF)
    with (l +:+ String lf (strings.Join (l' :: lines) LF)).
  rewrite occurrences_sep by assumption. rewrite IH. reflexivity.
Qed.

(** *** The composed prompt *)

Lemma Sprintf_promptTemplate (hint diff : string) :
  fmt.Sprintf promptTemplate [hint; diff]
  = opening +:+ hint +:+ LF +:+ diffHeading +:+ LF +:+ diffMarker +:+ LF
    +:+ diff +:+ LF +:+ diffMarker +:+ LF +:+ coda.
Proof.
  destruct template_parts as (Ht & Hi & Hc & _).
  destruct parts_literal as (Lo & Li & Lc & _).
  rewrite Ht at 1. rewrite Sprintf_2 by assumption.
  rewrite Hi, Hc. now rewrite !append_assoc.
Qed.

Lemma Sprintf_hintFormat (input : string) :
  fmt.Sprintf hintFormat [input]
  = "User-provided hint/context for this commit: " +:+ input +:+ LF
    +:+ "Please take this hint into account when generating the commit message."
    +:+ LF.
Proof.
  destruct template_parts as (_ & _ & _ & Hf & Hl & Ht).
  destruct parts_literal as (_ & _ & _ & Ll & Lt).
  rewrite Hf at 1. rewrite Sprintf_1 by assumption.
  now rewrite Hl, Ht.
Qed.

Lemma additionalContext_without (args : list string) :
  (length args <= 1)%nat -> additionalContext args = "".
Proof.
  intros H. unfold additionalContext.
  destruct (decide (1 < length args)%nat); [lia | reflexivity].
Qed.

Lemma additionalContext_with (args : list string) :
  (1 < length args)%nat ->
  additionalContext args
  = LF +:+ "User-provided hint/context for this commit: "
    +:+ strings.Join (drop 1 args) " " +:+ LF
    +:+ "Please take this hint into account when generating the commit message."
    +:+ LF.
Proof.
  intros H. unfold additionalContext.
  destruct (decide (1 < length args)%nat); [|lia].
  now rewrite Sprintf_hintFormat.
Qed.

(** A run that passes the checks composes one prompt, [promptText]. *)
Lemma composed_path (w : World) :
  checksPass w -> composed (trace w) = [promptText w].
Proof.
  intros (Hk & He & Ht & Hd & Hn). unfold promptText. along_path.
  { exfalso. apply Hn. now apply len_zero. }
  all: cbn [app composed fatalEvents];
    rewrite ?composed_app, ?composed_writes;
    cbn [app composed fatalEvents]; reflexivity.
Qed.

(** The fixed text of the prompt contains neither the lead-in of the hint
    paragraph nor, before the hint, a diff marker. *)
Lemma fixed_text_occurrences :
  occurrences hintLead opening = 0%nat
  ∧ occurrences hintLead diffHeading = 0%nat
  ∧ occurrences hintLead diffMarker = 0%nat
  ∧ occurrences hintLead coda = 0%nat
  ∧ occurrences hintLead
      "Please take this hint into account when generating the commit message."
    = 0%nat
  ∧ occurrences diffMarker opening = 0%nat
  ∧ occursIn lf hintLead = false
  ∧ exists rest, hintLead = String "U" rest ∧ occursIn "U" rest = false.
Proof.
  vm_compute. repeat split.
  eexists. split; reflexivity.
Qed.

Lemma occurrences_hintLead_lines (lines : list string) :
  occurrences hintLead (strings.Join lines LF)
  = foldr Nat.add 0%nat (map (occurrences hintLead) lines).
Proof.
  destruct fixed_text_occurrences as (_ & _ & _ & _ & _ & _ & Hlf & r & Hr & _).
  apply occurrences_Join; [assumption|]. rewrite Hr. discriminate.
Qed.

Lemma occurrences_hintLead_line (input : string) :
  occurrences hintLead (hintLead +:+ input)
  = S (occurrences hintLead input).
Proof.
  destruct fixed_text_occurrences as (_ & _ & _ & _ & _ & _ & _ & r & Hr & HU).
  rewrite Hr. now apply occurrences_lead.
Qed.

Lemma promptText_without (w : World) :
  (length (Args w) <= 1)%nat ->
  promptText w
  = opening +:+ LF +:+ fencedDiff (fst (command w "git" diffArgs)).
Proof.
  intros H. unfold promptText, fencedDiff.
  rewrite additionalContext_without by assumption.
  now rewrite Sprintf_promptTemplate.
Qed.

Lemma promptText_with (w : World) :
  (1 < length (Args w))%nat ->
  promptText w
  = opening +:+ LF +:+ hintParagraph (strings.Join (drop 1 (Args w)) " ")
    +:+ LF +:+ fencedDiff (fst (command w "git" diffArgs)).
Proof.
  intros H. unfold promptText, fencedDiff, hintParagraph.
  rewrite additionalContext_with by assumption.
  rewrite Sprintf_promptTemplate. now rewrite !append_assoc.
Qed.

Lemma occurrences_without (stagedDiff : string) :
  occurrences hintLead (opening +:+ LF +:+ fencedDiff stagedDiff)
  = occurrences hintLead stagedDiff.
Proof.
  destruct fixed_text_occurrences as (Ho & Hh & Hm & Hc & _).
  replace (opening +:+ LF +:+ fencedDiff stagedDiff)
    with (strings.Join
            [opening; diffHeading; diffMarker; stagedDiff; diffMarker; coda]
            LF).
  - rewrite occurrences_hintLead_lines. cbn [map foldr].
    rewrite Ho, Hh, Hm, Hc. lia.
  - cbn [strings.Join]. unfold fencedDiff. reflexivity.
Qed.

Lemma occurrences_with (input stagedDiff : string) :
  occurrences hintLead
    (opening +:+ LF +:+ hintParagraph input +:+ LF +:+ fencedDiff stagedDiff)
  = (1 + occurrences hintLead input + occurrences hintLead stagedDiff)%nat.
Proof.
  destruct fixed_text_occurrences as (Ho & Hh & Hm & Hc & Hp & _ & _ & _).
  destruct template_parts as (_ & _ & _ & _ & Hl & _).
  replace (opening +:+ LF +:+ hintParagraph input +:+ LF
           +:+ fencedDiff stagedDiff)
    with (strings.Join
            [opening; hintLead +:+ input;
             "Please take this hint into account when generating the commit message.";
             ""; diffHeading; diffMarker; stagedDiff; diffMarker; coda] LF).
  - rewrite occurrences_hintLead_lines. cbn [map foldr].
    rewrite occurrences_hintLead_line, Ho, Hh, Hm, Hc, Hp. simpl. lia.
  - cbn [strings.Join]. unfold hintParagraph, fencedDiff. rewrite Hl.
    now rewrite !append_assoc.
Qed.

(** C3. In every run that passes the checks, so with a non-empty staged
    diff, and is started without arguments, the one prompt composed is
    the instructions of the template followed directly by the heading of
    the diff, the opening marker, the diff text unchanged, the closing
    marker and the closing instructions; the hint substitution point
    receives the empty string, and the lead-in of the hint paragraph
    occurs in the prompt only where the diff text itself contains it. *)
Theorem prompt_without_arguments (w : World) :
  checksPass w -> (length (Args w) <= 1)%nat ->
  let stagedDiff := fst (command w "git" diffArgs) in
  let prompt :=
    opening +:+ LF +:+ diffHeading +:+ LF +:+ diffMarker +:+ LF
    +:+ stagedDiff +:+ LF +:+ diffMarker +:+ LF +:+ coda in
  composed (trace w) = [prompt]
  ∧ additionalContext (Args w) = ""
  ∧ occurrences hintLead prompt = occurrences hintLead stagedDiff
  ∧ promptTemplate
    = opening +:+ "%s" +:+ LF +:+ diffHeading +:+ LF +:+ diffMarker +:+ LF
      +:+ "%s" +:+ LF +:+ diffMarker +:+ LF +:+ coda.
Proof.
  intros Hp Ha stagedDiff prompt.
  split; [|split; [|split]].
  - rewrite composed_path by assumption.
    now rewrite promptText_without.
  - now apply additionalContext_without.
  - apply occurrences_without.
  - destruct template_parts as (Ht & Hi & Hc & _).
    rewrite Ht at 1. rewrite Hi, Hc. now rewrite !append_assoc.
Qed.

Lemma prompt_without_arguments_witness :
  composed (trace scenarioA)
  = [opening +:+ LF +:+ diffHeading +:+ LF +:+ diffMarker +:+ LF
     +:+ ("+foo" +:+ LF +:+ "-bar" +:+ LF) +:+ LF +:+ diffMarker +:+ LF
     +:+ coda].
Proof.
  apply (prompt_without_arguments scenarioA).
  - repeat split; try reflexivity; discriminate.
  - simpl. lia.
Defined.

(** C4. In every run that passes the checks and whose arguments, joined
    by single spaces, give a non-empty text, the one prompt composed is
    the instructions of the template, then the hint paragraph around
    that text unchanged, then an empty line and the diff between its
    markers; the lead-in of the hint paragraph occurs once apart from the
    places where the text of the user or the diff contain it themselves,
    and no diff marker occurs in the instructions before the
    paragraph. *)
Theorem prompt_with_hint (w : World) :
  checksPass w ->
  let input := strings.Join (drop 1 (Args w)) " " in
  input ≠ "" ->
  let stagedDiff := fst (command w "git" diffArgs) in
  let prompt :=
    opening +:+ LF
    +:+ "User-provided hint/context for this commit: " +:+ input +:+ LF
    +:+ "Please take this hint into account when generating the commit message."
    +:+ LF +:+ LF
    +:+ diffHeading +:+ LF +:+ diffMarker +:+ LF
    +:+ stagedDiff +:+ LF +:+ diffMarker +:+ LF +:+ coda in
  composed (trace w) = [prompt]
  ∧ occurrences hintLead prompt
    = (1 + occurrences hintLead input + occurrences hintLead stagedDiff)%nat
  ∧ occurrences diffMarker opening = 0%nat.
Proof.
  intros Hp input Hi stagedDiff prompt.
  assert (Hlen : (1 < length (Args w))%nat).
  { destruct (Args w) as [|a0 [|a1 rest]]; simpl; try lia;
      now contradiction Hi. }
  assert (Hprompt : prompt
    = opening +:+ LF +:+ hintParagraph input +:+ LF +:+ fencedDiff stagedDiff).
  { unfold prompt, hintParagraph, fencedDiff. now rewrite !append_assoc. }
  split; [|split].
  - rewrite composed_path by assumption.
    now rewrite promptText_with, Hprompt.
  - rewrite Hprompt. apply occurrences_with.
  - apply fixed_text_occurrences.
Qed.

Lemma prompt_with_hint_witness :
  composed (trace withHint)
  = [opening +:+ LF
     +:+ "User-provided hint/context for this commit: "
     +:+ "fix the parser" +:+ LF
     +:+ "Please take this hint into account when generating the commit message."
     +:+ LF +:+ LF
     +:+ diffHeading +:+ LF +:+ diffMarker +:+ LF
     +:+ ("+foo" +:+ LF +:+ "-bar" +:+ LF) +:+ LF +:+ diffMarker +:+ LF
     +:+ coda].
Proof.
  apply (prompt_with_hint withHint).
  - repeat split; try reflexivity; discriminate.
  - discriminate.
Defined.

(** C9. In every run that passes the checks and has at least one
    argument, whatever the arguments are, the prompt contains the hint
    paragraph around their space-joined text; in particular a single
    empty argument gives the paragraph with nothing after its lead-in. *)
Theorem hint_paragraph_for_any_argument (w : World) :
  checksPass w -> (1 < length (Args w))%nat ->
  let stagedDiff := fst (command w "git" diffArgs) in
  composed (trace w)
  = [opening +:+ LF
     +:+ "User-provided hint/context for this commit: "
     +:+ strings.Join (drop 1 (Args w)) " " +:+ LF
     +:+ "Please take this hint into account when generating the commit message."
     +:+ LF +:+ LF
     +:+ diffHeading +:+ LF +:+ diffMarker +:+ LF
     +:+ stagedDiff +:+ LF +:+ diffMarker +:+ LF +:+ coda]
  ∧ (forall program, Args w = [program; ""] ->
     composed (trace w)
     = [opening +:+ LF
        +:+ "User-provided hint/context for this commit: " +:+ LF
        +:+ "Please take this hint into account when generating the commit message."
        +:+ LF +:+ LF
        +:+ diffHeading +:+ LF +:+ diffMarker +:+ LF
        +:+ stagedDiff +:+ LF +:+ diffMarker +:+ LF +:+ coda]).
Proof.
  intros Hp Hlen stagedDiff.
  assert (H : composed (trace w)
    = [opening +:+ LF
       +:+ hintParagraph (strings.Join (drop 1 (Args w)) " ") +:+ LF
       +:+ fencedDiff stagedDiff]).
  { rewrite composed_path by assumption. now rewrite promptText_with. }
  unfold hintParagraph, fencedDiff in H. rewrite !append_assoc in H.
  split; [exact H|].
  intros program Hargs. rewrite H, Hargs. reflexivity.
Qed.

Lemma hint_paragraph_for_any_argument_witness :
  composed (trace emptyArgument)
  = [opening +:+ LF
     +:+ "User-provided hint/context for this commit: " +:+ LF
     +:+ "Please take this hint into account when generating the commit message."
     +:+ LF +:+ LF
     +:+ diffHeading +:+ LF +:+ diffMarker +:+ LF
     +:+ ("+foo" +:+ LF +:+ "-bar" +:+ LF) +:+ LF +:+ diffMarker +:+ LF
     +:+ coda].
Proof.
  refine (proj2 (hint_paragraph_for_any_argument emptyArgument _ _)
            "ai-commit" eq_refl).
  - repeat split; try reflexivity; discriminate.
  - simpl. lia.
Defined.

(** ** The spinner *)

Lemma firstFrame_eq (message : string) :
  firstFrame message = message +:+ " " +:+ spinnerChar 0.
Proof.
  unfold firstFrame.
  change "%s %s" with ("" +:+ "%s" +:+ " " +:+ "%s" +:+ "").
  rewrite Sprintf_2 by reflexivity. now rewrite append_nil_r.
Qed.

Lemma tickFrame_eq (message : string) (i : Z) :
  tickFrame message i = CR +:+ message +:+ " " +:+ spinnerChar i.
Proof.
  unfold tickFrame.
  change (CR +:+ "%s %s") with (CR +:+ "%s" +:+ " " +:+ "%s" +:+ "").
  rewrite Sprintf_2 by reflexivity. now rewrite append_nil_r.
Qed.

Lemma eraseLine_eq (message : string) :
  eraseLine message
  = CR +:+ strings.Repeat " " (len message + 1 + 1) +:+ CR.
Proof. unfold eraseLine. now rewrite Sprintf_1. Qed.

Lemma spinnerChar_in (i : Z) :
  0 <= i < Z.of_nat (length spinnerChars) -> spinnerChar i ∈ spinnerChars.
Proof.
  intros H. unfold spinnerChar. apply list_elem_of_In, nth_In. lia.
Qed.

Lemma len_repeat (s : string) (n : nat) :
  len (strings.repeat s n) = Z.of_nat n * len s.
Proof.
  induction n as [|n IH]; [reflexivity|].
  cbn [strings.repeat]. rewrite len_append, IH. lia.
Qed.

Lemma len_Repeat_space (count : Z) :
  0 <= count -> len (strings.Repeat " " count) = count.
Proof.
  intros H. unfold strings.Repeat. rewrite len_repeat.
  change (len " ") with 1. lia.
Qed.

(** The frames of the loop, without the final erasure. *)
Lemma spinnerLoop_frames (message : string) (ticks : nat) (i : Z) :
  0 <= i < Z.of_nat (length spinnerChars) ->
  exists frames,
    spinnerLoop message ticks i = frames ++ [eraseLine message]
    ∧ length frames = ticks
    ∧ forall frame, frame ∈ frames ->
        exists glyph, glyph ∈ spinnerChars
          ∧ frame = CR +:+ message +:+ " " +:+ glyph.
Proof.
  revert i. induction ticks as [|n IH]; intros i Hi.
  - exists []. repeat split. intros frame H. now apply elem_of_nil in H.
  - cbn [spinnerLoop].
    assert (Hi' : 0 <= (i + 1) mod Z.of_nat (length spinnerChars)
                  < Z.of_nat (length spinnerChars))
      by (apply Z.mod_pos_bound; simpl; lia).
    destruct (IH _ Hi') as (frames & Heq & Hlen & Hframes).
    exists (tickFrame message ((i + 1) mod Z.of_nat (length spinnerChars))
            :: frames).
    rewrite Heq. split; [reflexivity|]. split; [simpl; now rewrite Hlen|].
    intros frame H. apply elem_of_cons in H as [->|H]; [|now apply Hframes].
    eexists. split; [apply spinnerChar_in, Hi'|apply tickFrame_eq].
Qed.

(** *** Runes and bytes *)

Lemma DecodeRuneInString_size (s : string) :
  s ≠ "" -> 1 <= snd (utf8.DecodeRuneInString s) <= 4.
Proof.
  intros Hs. unfold utf8.DecodeRuneInString. cbv zeta.
  destruct (len s <? 1) eqn:Hn.
  { apply Z.ltb_lt in Hn. pose proof (len_nonneg s) as H0.
    assert (len s = 0) as Hz by lia. apply len_zero in Hz. contradiction. }
  repeat match goal with
  | |- context [if ?b then _ else _] => destruct b
  end; cbn [snd]; lia.
Qed.

Lemma length_substring_le (n m : nat) (s : string) :
  (String.length (String.substring n m s) <= String.length s - n)%nat.
Proof.
  revert n m. induction s as [|c s IH]; intros [|n] [|m]; simpl; try lia.
  - specialize (IH 0%nat m). lia.
  - apply IH.
  - apply IH.
Qed.

Lemma countFrom_le (fuel : nat) (s : string) :
  utf8.countFrom fuel s <= len s.
Proof.
  revert s. induction fuel as [|fuel IH]; intros s; simpl.
  { apply len_nonneg. }
  destruct s as [|c s]; [apply len_nonneg|].
  pose proof (DecodeRuneInString_size (String c s)) as Hsize.
  destruct (utf8.DecodeRuneInString (String c s)) as [r size].
  cbn [snd] in Hsize. specialize (Hsize ltac:(discriminate)).
  specialize (IH (slice (String c s) size (len (String c s)))).
  assert (len (slice (String c s) size (len (String c s)))
          <= len (String c s) - 1); [|lia].
  unfold slice, len.
  pose proof (length_substring_le (Z.to_nat size)
    (Z.to_nat (Z.of_nat (String.length (String c s)) - size)) (String c s)).
  cbn [String.length] in *. lia.
Qed.

(** A string has at most as many runes as bytes. *)
Lemma RuneCountInString_le (s : string) : utf8.RuneCountInString s <= len s.
Proof. apply countFrom_le. Qed.

(** *** The erasure holds no glyph *)

Lemma occursIn_append (c : ascii) (a b : string) :
  occursIn c (a +:+ b) = occursIn c a || occursIn c b.
Proof.
  induction a as [|x a IH]; [reflexivity|].
  rewrite append_cons. simpl. rewrite IH. now rewrite orb_assoc.
Qed.

Lemma occursIn_repeat_space (c : ascii) (n : nat) :
  c ≠ " "%char -> occursIn c (strings.repeat " " n) = false.
Proof.
  intros H. induction n as [|n IH]; [reflexivity|].
  cbn [strings.repeat]. rewrite occursIn_append, IH. simpl.
  rewrite !orb_false_r. now apply Ascii.eqb_neq.
Qed.

Lemma occurrences_absent (c : ascii) (p s : string) :
  occursIn c s = false -> occurrences (String c p) s = 0%nat.
Proof.
  induction s as [|x s IH]; intros H; [reflexivity|].
  apply occursIn_cons_false in H as [Hx Hs].
  cbn [occurrences]. rewrite prefix_cons_ne by assumption. now rewrite IH.
Qed.

(** Every glyph is one rune, of three bytes, the first of which is
    neither a space nor a carriage return. *)
Lemma glyph_shape (glyph : string) :
  glyph ∈ spinnerChars ->
  utf8.RuneCountInString glyph = 1 ∧ len glyph = 3
  ∧ exists rest, glyph = String (ascii_of_nat 226) rest.
Proof.
  intros H. unfold spinnerChars in H.
  repeat (apply elem_of_cons in H as [->|H];
          [vm_compute; repeat split; eexists; reflexivity|]).
  now apply elem_of_nil in H.
Qed.

Lemma erase_has_no_glyph (message glyph : string) :
  glyph ∈ spinnerChars ->
  occurrences glyph (CR +:+ strings.Repeat " " (len message + 1 + 1) +:+ CR)
  = 0%nat.
Proof.
  intros H. destruct (glyph_shape glyph H) as (_ & _ & rest & ->).
  apply occurrences_absent. unfold strings.Repeat.
  rewrite !occursIn_append, occursIn_repeat_space by discriminate.
  reflexivity.
Qed.

(** C7. For every status message and every number of ticks before the
    cancellation is seen, the writes of the spinner are the frames
    followed by one last write: a carriage return, as many spaces as the
    message has bytes plus two, and a carriage return.  The spaces are at
    least as many as the characters of a frame (the runes of the message,
    the separating space and the glyph), and the last write contains no
    glyph, so no glyph is written after the line is erased. *)
Theorem spinner_erases_its_line (message : string) (ticks : nat) :
  let spaces := strings.Repeat " " (len message + 1 + 1) in
  exists frames,
    showSpinner message ticks = frames ++ [CR +:+ spaces +:+ CR]
    ∧ length frames = S ticks
    ∧ (forall frame, frame ∈ frames ->
         exists glyph, glyph ∈ spinnerChars
           ∧ (frame = message +:+ " " +:+ glyph
              ∨ frame = CR +:+ message +:+ " " +:+ glyph))
    ∧ (forall glyph, glyph ∈ spinnerChars ->
         occurrences glyph (CR +:+ spaces +:+ CR) = 0%nat
         ∧ utf8.RuneCountInString message + 1 + utf8.RuneCountInString glyph
           <= len spaces).
Proof.
  intros spaces. unfold showSpinner.
  destruct (spinnerLoop_frames message ticks 0) as (frames & Heq & Hlen & Hfr).
  { simpl. lia. }
  exists (firstFrame message :: frames).
  rewrite Heq, eraseLine_eq. split; [reflexivity|].
  split; [simpl; now rewrite Hlen|]. split.
  - intros frame H. apply elem_of_cons in H as [->|H].
    + exists (spinnerChar 0). split.
      * apply spinnerChar_in. simpl. lia.
      * left. apply firstFrame_eq.
    + destruct (Hfr frame H) as (glyph & Hg & ->). eauto.
  - intros glyph Hg. split; [now apply erase_has_no_glyph|].
    destruct (glyph_shape glyph Hg) as (-> & _ & _).
    unfold spaces. pose proof (len_nonneg message).
    rewrite len_Repeat_space by lia.
    pose proof (RuneCountInString_le message). lia.
Qed.

(** ** The join barrier *)

Lemma spinnerLoop_tickFrames (message : string) (ticks : nat) (i : Z) :
  spinnerLoop message ticks i
  = tickFrames message ticks i ++ [eraseLine message].
Proof.
  revert i. induction ticks as [|n IH]; intros i; [reflexivity|].
  cbn [spinnerLoop tickFrames]. now rewrite IH.
Qed.

Lemma tickIndex_S (ticks : nat) (i : Z) :
  tickIndex (S ticks) i
  = (tickIndex ticks i + 1) mod Z.of_nat (length spinnerChars).
Proof.
  revert i. induction ticks as [|n IH]; intros i; [reflexivity|].
  change (tickIndex (S (S n)) i)
    with (tickIndex (S n) ((i + 1) mod Z.of_nat (length spinnerChars))).
  now rewrite IH.
Qed.

Lemma tickFrames_S (message : string) (ticks : nat) (i : Z) :
  tickFrames message (S ticks) i
  = tickFrames message ticks i
    ++ [tickFrame message
          ((tickIndex ticks i + 1) mod Z.of_nat (length spinnerChars))].
Proof.
  revert i. induction ticks as [|n IH]; intros i; [reflexivity|].
  change (tickFrames message (S (S n)) i)
    with (tickFrame message ((i + 1) mod Z.of_nat (length spinnerChars))
          :: tickFrames message (S n)
               ((i + 1) mod Z.of_nat (length spinnerChars))).
  rewrite IH. reflexivity.
Qed.

Lemma showSpinner_frames (message : string) (ticks : nat) :
  showSpinner message ticks
  = (firstFrame message :: tickFrames message ticks 0)
    ++ [eraseLine message].
Proof. unfold showSpinner. now rewrite spinnerLoop_tickFrames. Qed.

Lemma Fatalf_events (w : World) (format : string) (a : list string)
    (o : list Event) :
  fst (log.Fatalf (A := unit) w format a o)
  = o ++ fatalEvents w (fmt.Sprintf format a).
Proof. unfold log.Fatalf. now rewrite run_Fatal. Qed.

Lemma Println_events (a : string) (o : list Event) :
  fst (fmt.Println a o) = o ++ [EWrite Stdout (fmt.Sprintln a)].
Proof. reflexivity. Qed.

Lemma joinInvariant_initial (w : World) (key prompt : string) :
  joinInvariant w key prompt Await.initial.
Proof.
  split; simpl.
  - repeat split. now left.
  - intros [H|[H|[H|H]]]; discriminate.
Qed.

Ltac unfold_conf :=
  unfold joinInvariant, beforeBarrier in *;
  cbn [Await.spinnerPc Await.mainPc Await.wg Await.done Await.i
       Await.answer Await.out] in *.

Lemma joinInvariant_step (w : World) (key prompt : string)
    (c c' : Await.Conf) :
  joinInvariant w key prompt c -> Await.step w key prompt c c' ->
  joinInvariant w key prompt c'.
Proof.
  intros Hinv Hstep. destruct Hstep.
  - (* wg.Add(1) *)
    unfold_conf. destruct sp; naive_solver lia.
  - (* go *)
    unfold_conf. naive_solver lia.
  - (* the call starts *)
    unfold_conf. destruct sp; naive_solver lia.
  - (* the call returns *)
    unfold_conf. destruct sp; naive_solver lia.
  - (* cancelSpinner() *)
    unfold_conf. destruct sp; naive_solver lia.
  - (* wg.Wait() *)
    unfold_conf. destruct sp; naive_solver lia.
  - (* log.Fatalf *)
    unfold_conf. rewrite Fatalf_events. destruct sp; naive_solver lia.
  - (* fmt.Println *)
    unfold_conf. rewrite Println_events. destruct sp; naive_solver lia.
  - (* the first frame *)
    unfold_conf. destruct Hinv as [(-> & -> & Hwg & Hb) Ha].
    split; [|exact Ha]. exists 0%nat. repeat split; assumption.
  - (* a tick *)
    unfold_conf. destruct Hinv as [(m & -> & -> & Hwg & Hb) Ha].
    split; [|exact Ha]. exists (S m). subst k'.
    rewrite tickIndex_S, tickFrames_S.
    repeat split; try assumption.
    cbn [map]. now rewrite map_app, app_comm_cons.
  - (* the cancellation *)
    unfold_conf. destruct Hinv as [(m & -> & -> & Hwg & Hb) Ha].
    split; [|exact Ha]. exists m. rewrite showSpinner_frames, map_app.
    repeat split; try assumption.
    destruct Hb as [[_ Hd]|[Hm _]]; [discriminate | assumption].
  - (* wg.Done() *)
    unfold_conf. destruct Hinv as [(m & -> & -> & Hd & ->) Ha].
    split; [|exact Ha]. exists m. repeat split; try assumption.
    left. split; [now left | reflexivity].
Qed.

Lemma joinInvariant_reachable (w : World) (key prompt : string)
    (c : Await.Conf) :
  Await.reachable w key prompt c -> joinInvariant w key prompt c.
Proof.
  induction 1 as [|c c' _ IH Hstep].
  - apply joinInvariant_initial.
  - eapply joinInvariant_step; eassumption.
Qed.

(** Every number of ticks is the number of some run of the two tasks. *)
Lemma ticking_reachable (w : World) (key prompt : string) (n : nat) :
  Await.reachable w key prompt
    (Await.Build_Conf Await.AtCall Await.AtSelect 1 false (tickIndex n 0)
       ("", None)
       (map (EWrite Stderr)
          (firstFrame spinnerMessage :: tickFrames spinnerMessage n 0))).
Proof.
  induction n as [|n IH].
  - eapply Await.reach_step; [eapply Await.reach_step;
      [eapply Await.reach_step; [apply Await.reach_initial|] |] |].
    + apply Await.main_add.
    + apply Await.main_go.
    + apply (Await.spinner_first w key prompt Await.AtCall 1 false 0
               ("", None) []). discriminate.
  - eapply Await.reach_step; [exact IH|].
    rewrite tickIndex_S, tickFrames_S, app_comm_cons, map_app.
    apply Await.spinner_tick. discriminate.
Qed.

Lemma joined_reachable (w : World) (key prompt : string) (n : nat) :
  Await.reachable w key prompt (joined w key prompt n).
Proof.
  pose proof (ticking_reachable w key prompt n) as H.
  eapply Await.reach_step in H; [|apply Await.main_call].
  eapply Await.reach_step in H; [|apply Await.main_called].
  eapply Await.reach_step in H; [|apply Await.main_cancel].
  eapply Await.reach_step in H; [|apply Await.spinner_done; discriminate].
  eapply Await.reach_step in H; [|apply Await.spinner_wg_done; discriminate].
  eapply Await.reach_step in H; [|apply Await.main_wait].
  unfold joined. rewrite showSpinner_frames, map_app.
  destruct (generateContent w key geminiModel prompt) as [result [e|]].
  - eapply Await.reach_step in H; [|apply Await.main_fatal].
    now rewrite Fatalf_events in H.
  - eapply Await.reach_step in H; [|apply Await.main_println].
    now rewrite Println_events in H.
Qed.

(** The events [main] lists after the call are those of such a run. *)
Lemma run_is_a_joined_run (w : World) :
  checksPass w -> newClient w (apiKey w) = None ->
  trace w
  = [EGetenv "GEMINI_API_KEY"; EExec "git" revParseArgs;
     EExec "git" diffArgs; EPrompt (promptText w); ENewClient (apiKey w);
     EGenerate geminiModel (promptText w)]
    ++ Await.out (joined w (apiKey w) (promptText w) (ticks w)).
Proof.
  intros Hp Hc. unfold trace. rewrite (run_with_client w Hp Hc).
  cbn [fst joined Await.out]. unfold reportEvents.
  destruct (generateContent w (apiKey w) geminiModel (promptText w))
    as [result [e|]]; reflexivity.
Qed.

(** C6. In every reachable configuration of the two tasks: as long as
    [main] has not reported, everything written so far is a prefix of the
    writes of the spinner, so [main] has printed neither the message nor
    the fatal error; and once [main] has reported, the context was
    cancelled, the wait group is back at zero, the spinner task has
    finished, and the output is the frames of the spinner, then its
    erasure, then the report of [main]. *)
Theorem spinner_joined_before_report (w : World)
    (geminiApiKey promptText : string) (c : Await.Conf) :
  Await.reachable w geminiApiKey promptText c ->
  (Await.mainPc c ≠ Await.Gone ->
     exists n, Await.out c
       `prefix_of` map (EWrite Stderr) (showSpinner spinnerMessage n))
  ∧ (Await.mainPc c = Await.Gone ->
     Await.done c = true ∧ Await.wg c = 0
     ∧ Await.spinnerPc c = Await.Finished
     ∧ exists frames,
         Await.out c
         = map (EWrite Stderr) frames
           ++ [EWrite Stderr (eraseLine spinnerMessage)]
           ++ reportEvents w
                (generateContent w geminiApiKey geminiModel promptText)).
Proof.
  intros Hreach. apply joinInvariant_reachable in Hreach.
  destruct Hreach as [Hs Ha]. unfold beforeBarrier in Hs. split.
  - intros Hm. destruct (Await.spinnerPc c).
    + destruct Hs as (-> & _). exists 0%nat. apply prefix_nil.
    + destruct Hs as (-> & _). exists 0%nat. apply prefix_nil.
    + destruct Hs as (n & -> & _). exists n.
      rewrite showSpinner_frames, map_app. now apply prefix_app_r.
    + destruct Hs as (n & -> & _). now exists n.
    + destruct Hs as (n & _ & _ & [[_ ->]|[Hg _]]); [now exists n|].
      contradiction.
  - intros Hm. rewrite Hm in *. destruct (Await.spinnerPc c).
    + destruct Hs as (_ & _ & _ & [[? _]|[? _]]); discriminate.
    + destruct Hs as (_ & _ & _ & [[[?|[?|?]] _]|[? _]]); discriminate.
    + destruct Hs as (n & _ & _ & _ & [[[?|[?|?]] _]|[? _]]); discriminate.
    + destruct Hs as (n & _ & _ & _ & ?); discriminate.
    + destruct Hs as (n & Hwg & Hd & [[[?|?] _]|[_ Hout]]); try discriminate.
      repeat split; try assumption.
      exists (firstFrame spinnerMessage :: tickFrames spinnerMessage n 0).
      rewrite Hout, showSpinner_frames, map_app, <- app_assoc.
      rewrite Ha by auto. reflexivity.
Qed.

Lemma spinner_joined_before_report_witness :
  Await.done joinedA = true ∧ Await.wg joinedA = 0
  ∧ Await.spinnerPc joinedA = Await.Finished
  ∧ exists frames,
      Await.out joinedA
      = map (EWrite Stderr) frames
        ++ [EWrite Stderr (eraseLine spinnerMessage)]
        ++ [EWrite Stdout ("✨ feat(core): add foo" +:+ LF)].
Proof.
  apply (spinner_joined_before_report scenarioA "secret"
           (promptText scenarioA) joinedA).
  - apply joined_reachable.
  - reflexivity.
Defined.

Lemma spinner_erases_its_line_witness :
  exists frames,
    showSpinner spinnerMessage 3
    = frames ++ [CR +:+ strings.Repeat " " 37 +:+ CR]
    ∧ length frames = 4%nat
    ∧ (forall frame, frame ∈ frames ->
         exists glyph, glyph ∈ spinnerChars
           ∧ (frame = spinnerMessage +:+ " " +:+ glyph
              ∨ frame = CR +:+ spinnerMessage +:+ " " +:+ glyph))
    ∧ (forall glyph, glyph ∈ spinnerChars ->
         occurrences glyph (CR +:+ strings.Repeat " " 37 +:+ CR) = 0%nat
         ∧ utf8.RuneCountInString spinnerMessage + 1
           + utf8.RuneCountInString glyph
           <= len (strings.Repeat " " 37)).
Proof. exact (spinner_erases_its_line spinnerMessage 3). Defined.

(** * Further properties *)

(** ** The error paths of [main] *)

Lemma endsWithLF_append (a e : string) :
  log.endsWithLF a = false -> log.endsWithLF (a +:+ e) = log.endsWithLF e.
Proof.
  induction a as [|c a IH]; intros Ha; [reflexivity|].
  rewrite append_cons. destruct a as [|c' a].
  - rewrite append_nil_l. destruct e as [|x e]; [exact Ha | reflexivity].
  - change (log.endsWithLF (String c (String c' a)))
      with (log.endsWithLF (String c' a)) in Ha.
    rewrite append_cons in *.
    change (log.endsWithLF (String c (String c' (a +:+ e))))
      with (log.endsWithLF (String c' (a +:+ e))).
    now apply IH.
Qed.

Lemma concatAll_app (l l' : list string) :
  concatAll (l ++ l') = concatAll l +:+ concatAll l'.
Proof.
  unfold concatAll. induction l as [|x l IH]; [reflexivity|].
  cbn [app foldr]. now rewrite IH, append_assoc.
Qed.

(** A message [before%v] with its error operand, as a log entry. *)
Lemma Output_Sprintf_v (header before e : string) :
  noPercent before = true -> log.endsWithLF before = false ->
  log.Output header (fmt.Sprintf (before +:+ "%v") [e])
  = header +:+ before +:+ e +:+ (if log.endsWithLF e then "" else LF).
Proof.
  intros Hb Hl.
  assert (Hs : fmt.Sprintf (before +:+ "%v") [e] = before +:+ e).
  { unfold fmt.Sprintf. rewrite doPrintf_literal by assumption.
    change (fmt.doPrintf "%v" [e]) with (e +:+ ""). now rewrite append_nil_r. }
  rewrite Hs. unfold log.Output. rewrite endsWithLF_append by assumption.
  now rewrite !append_assoc.
Qed.

Lemma concatAll_written (datas : list string) :
  written Stderr (map (EWrite Stderr) datas) = concatAll datas.
Proof. induction datas as [|d datas IH]; simpl; [reflexivity | now rewrite IH]. Qed.

(** X1. When the credential is present and [git rev-parse] fails, the run
    ends with status 1 after that one command, whatever the command
    printed: the error stream holds one entry, the header of the logger,
    the text [Error checking git repository status: ] and the text of the
    error, closed by a newline unless the error text ends with one;
    nothing is written to standard output, no prompt is composed and the
    service is not called. *)
Theorem repository_check_error_is_fatal (w : World) (output e : string) :
  apiKey w ≠ "" ->
  command w "git" revParseArgs = (output, Some e) ->
  exitCode w = 1 ∧ stdout w = ""
  ∧ stderr w
    = clock w +:+ "Error checking git repository status: " +:+ e
      +:+ (if log.endsWithLF e then "" else LF)
  ∧ invocations (trace w) = [("git", revParseArgs)]
  ∧ composed (trace w) = [] ∧ generations (trace w) = [].
Proof.
  intros Hk Hc. along_path.
  split; [reflexivity|]. split; [reflexivity|]. split; [|repeat split].
  cbn [app fatalEvents written].
  change "Error checking git repository status: %v"
    with ("Error checking git repository status: " +:+ "%v").
  rewrite Output_Sprintf_v by reflexivity. now rewrite append_nil_r.
Qed.

Lemma repository_check_error_is_fatal_witness :
  exitCode revParseFails = 1 ∧ stdout revParseFails = ""
  ∧ stderr revParseFails
    = "2025/06/01 12:00:00 Error checking git repository status: exit status 128"
      +:+ LF
  ∧ invocations (trace revParseFails) = [("git", revParseArgs)]
  ∧ composed (trace revParseFails) = []
  ∧ generations (trace revParseFails) = [].
Proof.
  apply (repository_check_error_is_fatal revParseFails ("true" +:+ LF)
           "exit status 128"); [discriminate | reflexivity].
Defined.

(** X2. When the checks before it pass and [git diff] fails, the run ends
    with status 1: the error stream holds one entry with the text
    [Error getting staged diff: ] and the text of the error, whatever
    partial output the command produced; no prompt is composed and the
    service is not called. *)
Theorem diff_error_is_fatal (w : World) (output e : string) :
  apiKey w ≠ "" ->
  snd (command w "git" revParseArgs) = None ->
  strings.TrimSpace (fst (command w "git" revParseArgs)) = "true" ->
  command w "git" diffArgs = (output, Some e) ->
  exitCode w = 1 ∧ stdout w = ""
  ∧ stderr w
    = clock w +:+ "Error getting staged diff: " +:+ e
      +:+ (if log.endsWithLF e then "" else LF)
  ∧ composed (trace w) = [] ∧ generations (trace w) = [].
Proof.
  intros Hk He Ht Hc. along_path.
  split; [reflexivity|]. split; [reflexivity|]. split; [|repeat split].
  cbn [app fatalEvents written].
  change "Error getting staged diff: %v"
    with ("Error getting staged diff: " +:+ "%v").
  rewrite Output_Sprintf_v by reflexivity. now rewrite append_nil_r.
Qed.

Lemma diff_error_is_fatal_witness :
  exitCode diffFails = 1 ∧ stdout diffFails = ""
  ∧ stderr diffFails
    = "2025/06/01 12:00:00 Error getting staged diff: exit status 129" +:+ LF
  ∧ composed (trace diffFails) = [] ∧ generations (trace diffFails) = [].
Proof.
  apply (diff_error_is_fatal diffFails ("+foo" +:+ LF) "exit status 129");
    [discriminate | reflexivity | reflexivity | reflexivity].
Defined.

(** X3. When the checks pass and the client cannot be created, the run
    ends with status 1 before the spinner starts and before the service
    is called: the error stream holds only the entry
    [Error creating client: ] with the text of the error, without any
    frame of the spinner. *)
Theorem client_error_is_fatal (w : World) (e : string) :
  checksPass w ->
  newClient w (apiKey w) = Some e ->
  exitCode w = 1 ∧ stdout w = ""
  ∧ stderr w
    = clock w +:+ "Error creating client: " +:+ e
      +:+ (if log.endsWithLF e then "" else LF)
  ∧ generations (trace w) = [].
Proof.
  intros (Hk & He & Ht & Hd & Hn) Hc. along_path.
  { exfalso. apply Hn. now apply len_zero. }
  split; [reflexivity|]. split; [reflexivity|]. split; [|reflexivity].
  cbn [app fatalEvents written].
  change "Error creating client: %v" with ("Error creating client: " +:+ "%v").
  rewrite Output_Sprintf_v by reflexivity. now rewrite append_nil_r.
Qed.

Lemma client_error_is_fatal_witness :
  exitCode clientFails = 1 ∧ stdout clientFails = ""
  ∧ stderr clientFails
    = "2025/06/01 12:00:00 Error creating client: api key not valid" +:+ LF
  ∧ generations (trace clientFails) = [].
Proof.
  apply (client_error_is_fatal clientFails "api key not valid");
    [repeat split; try reflexivity; discriminate | reflexivity].
Defined.

(** ** The error stream around the call *)

(** X4. When the call to the service fails, the error stream holds the
    writes of the spinner, the last of which is the erasure, and after
    them one entry [Error generating commit message : ] with the text of
    the error; the exit status is 1. *)
Theorem generation_error_is_reported (w : World) (result e : string) :
  checksPass w -> newClient w (apiKey w) = None ->
  generateContent w (apiKey w) geminiModel (promptText w) = (result, Some e) ->
  exitCode w = 1
  ∧ stderr w
    = concatAll (firstFrame spinnerMessage
                 :: tickFrames spinnerMessage (ticks w) 0)
      +:+ eraseLine spinnerMessage
      +:+ clock w +:+ "Error generating commit message : " +:+ e
      +:+ (if log.endsWithLF e then "" else LF).
Proof.
  intros Hp Hc Hg. unfold stderr, exitCode, trace.
  rewrite (run_with_client w Hp Hc), Hg. cbn [fst snd].
  split; [reflexivity|].
  rewrite !written_app, concatAll_written, showSpinner_frames.
  cbn [written fatalEvents].
  change "Error generating commit message : %v"
    with ("Error generating commit message : " +:+ "%v").
  rewrite Output_Sprintf_v by reflexivity.
  rewrite concatAll_app. unfold concatAll at 2. cbn [foldr].
  rewrite !append_nil_r, !append_assoc. reflexivity.
Qed.

Lemma generation_error_is_reported_witness :
  exitCode scenarioD = 1
  ∧ stderr scenarioD
    = concatAll (firstFrame spinnerMessage :: tickFrames spinnerMessage 3 0)
      +:+ eraseLine spinnerMessage
      +:+ "2025/06/01 12:00:00 "
      +:+ "Error generating commit message : "
      +:+ "googleapi: Error 429: quota exceeded" +:+ LF.
Proof.
  apply (generation_error_is_reported scenarioD ""
           "googleapi: Error 429: quota exceeded");
    [repeat split; try reflexivity; discriminate | reflexivity | reflexivity].
Defined.



(** ** One prompt, one call *)


(** ** The shape of a failing run *)







(** ** The animation of the spinner *)

Lemma tickIndex_mod (ticks : nat) :
  tickIndex ticks 0 = Z.of_nat ticks mod Z.of_nat (length spinnerChars).
Proof.
  induction ticks as [|n IH]; [reflexivity|].
  rewrite tickIndex_S, IH.
  rewrite Z.add_mod_idemp_l by (simpl; lia).
  f_equal. lia.
Qed.

Lemma length_tickFrames (message : string) (ticks : nat) (i : Z) :
  length (tickFrames message ticks i) = ticks.
Proof.
  revert i. induction ticks as [|n IH]; intros i; [reflexivity|].
  cbn [tickFrames length]. now rewrite IH.
Qed.

Lemma tickFrames_lookup (message : string) (ticks k : nat) (i : Z) :
  (k < ticks)%nat ->
  tickFrames message ticks i !! k
  = Some (tickFrame message (tickIndex (S k) i)).
Proof.
  revert k i. induction ticks as [|n IH]; intros k i Hk; [lia|].
  destruct k as [|k]; [reflexivity|].
  cbn [tickFrames]. rewrite lookup_cons. cbn [Nat.pred].
  rewrite IH by lia. reflexivity.
Qed.

(** X8. The frames of the spinner run through the ten glyphs in their
    order and start over after the tenth: for a run of [ticks] ticks, the
    write number [k] with [1 <= k <= ticks] is a carriage return, the
    message, a space and the glyph of index [k mod 10], so that the write
    number [k + 10] equals the write number [k]; the write number 0 is
    the message with the first glyph, and the index never leaves the
    table. *)
Theorem spinner_cycles_through_the_glyphs (message : string) (ticks k : nat) :
  (1 <= k <= ticks)%nat ->
  showSpinner message ticks !! k
  = Some (CR +:+ message +:+ " " +:+ spinnerChar (Z.of_nat k mod 10))
  ∧ spinnerChar (Z.of_nat k mod 10) ∈ spinnerChars
  ∧ ((k + 10 <= ticks)%nat ->
     showSpinner message ticks !! (k + 10)%nat = showSpinner message ticks !! k)
  ∧ showSpinner message ticks !! 0%nat
    = Some (message +:+ " " +:+ spinnerChar 0).
Proof.
  intros Hk.
  assert (Hat : forall j, (1 <= j <= ticks)%nat ->
    showSpinner message ticks !! j
    = Some (CR +:+ message +:+ " " +:+ spinnerChar (Z.of_nat j mod 10))).
  { intros j Hj. rewrite showSpinner_frames. destruct j as [|j]; [lia|].
    rewrite <- app_comm_cons, lookup_cons. cbn [Nat.pred].
    rewrite lookup_app_l by (rewrite length_tickFrames; lia).
    rewrite tickFrames_lookup by lia.
    rewrite tickFrame_eq, tickIndex_mod. reflexivity. }
  split; [now apply Hat|]. split; [|split].
  - apply spinnerChar_in. apply Z.mod_pos_bound. simpl. lia.
  - intros Hk'. rewrite !Hat by lia. do 3 f_equal.
    replace (Z.of_nat (k + 10)) with (Z.of_nat k + 1 * 10) by lia.
    now rewrite Z.mod_add by lia.
  - unfold showSpinner. cbn [lookup list_lookup]. now rewrite firstFrame_eq.
Qed.

Lemma spinner_cycles_through_the_glyphs_witness :
  showSpinner spinnerMessage 12 !! 2%nat
  = Some (CR +:+ spinnerMessage +:+ " " +:+ "⠹")
  ∧ spinnerChar (Z.of_nat 2 mod 10) ∈ spinnerChars
  ∧ ((2 + 10 <= 12)%nat ->
     showSpinner spinnerMessage 12 !! (2 + 10)%nat
     = showSpinner spinnerMessage 12 !! 2%nat)
  ∧ showSpinner spinnerMessage 12 !! 0%nat
    = Some (spinnerMessage +:+ " " +:+ "⠋").
Proof. apply (spinner_cycles_through_the_glyphs spinnerMessage 12 2). lia. Defined.

Lemma glyph_no_newline (glyph : string) :
  glyph ∈ spinnerChars -> occursIn lf glyph = false.
Proof.
  intros H. unfold spinnerChars in H.
  repeat (apply elem_of_cons in H as [->|H]; [reflexivity|]).
  now apply elem_of_nil in H.
Qed.

Lemma occursIn_concatAll (c : ascii) (l : list string) :
  (forall x, x ∈ l -> occursIn c x = false) ->
  occursIn c (concatAll l) = false.
Proof.
  unfold concatAll. induction l as [|x l IH]; intros H; [reflexivity|].
  cbn [foldr]. rewrite occursIn_append, H by apply list_elem_of_here.
  apply IH. intros y Hy. apply H. now apply list_elem_of_further.
Qed.

(** X9. The spinner stays on one line: for a status message without a
    newline, none of its writes contains a newline, neither a frame nor
    the erasure, whatever the number of ticks; so all it ever writes
    together contains none. *)
Theorem spinner_stays_on_one_line (message : string) (ticks : nat) :
  occursIn lf message = false ->
  (forall data, data ∈ showSpinner message ticks -> occursIn lf data = false)
  ∧ occursIn lf (concatAll (showSpinner message ticks)) = false.
Proof.
  intros Hm.
  assert (H : forall data, data ∈ showSpinner message ticks ->
                occursIn lf data = false).
  { intros data Hd. unfold showSpinner in Hd.
    destruct (spinnerLoop_frames message ticks 0) as (frames & Heq & _ & Hfr).
    { simpl. lia. }
    rewrite Heq in Hd. apply elem_of_cons in Hd as [->|Hd].
    - rewrite firstFrame_eq, !occursIn_append, Hm.
      rewrite (glyph_no_newline (spinnerChar 0))
        by (apply spinnerChar_in; simpl; lia).
      reflexivity.
    - apply elem_of_app in Hd as [Hd|Hd].
      + destruct (Hfr data Hd) as (glyph & Hg & ->).
        rewrite !occursIn_append, Hm, (glyph_no_newline glyph) by assumption.
        reflexivity.
      + apply list_elem_of_singleton in Hd as ->.
        rewrite eraseLine_eq. unfold strings.Repeat.
        rewrite !occursIn_append, occursIn_repeat_space by discriminate.
        reflexivity. }
  split; [exact H | now apply occursIn_concatAll].
Qed.

Lemma spinner_stays_on_one_line_witness :
  (forall data, data ∈ showSpinner spinnerMessage 3 ->
     occursIn lf data = false)
  ∧ occursIn lf (concatAll (showSpinner spinnerMessage 3)) = false.
Proof. apply (spinner_stays_on_one_line spinnerMessage 3). reflexivity. Defined.

(** ** White space around the answer of the repository check *)

Lemma at_app_l (a b : string) (j : Z) :
  0 <= j < len a -> at_ (a +:+ b) j = at_ a j.
Proof.
  intros H. unfold at_, len in *.
  rewrite <- (String.append_correct1 a b) by lia. reflexivity.
Qed.

Lemma at_app_r (a b : string) (j : Z) :
  len a <= j -> at_ (a +:+ b) j = at_ b (j - len a).
Proof.
  intros H. unfold at_, len in *.
  rewrite (String.append_correct2 a b (Z.to_nat (j - Z.of_nat (String.length a)))).
  replace (Z.to_nat (j - Z.of_nat (String.length a)) + String.length a)%nat
    with (Z.to_nat j) by lia.
  reflexivity.
Qed.

Lemma asciiSpace_ascii (c : Z) :
  strings.asciiSpace c = true -> c < utf8.RuneSelf.
Proof.
  unfold strings.asciiSpace, utf8.RuneSelf.
  rewrite !orb_true_iff, !Z.eqb_eq. lia.
Qed.

Lemma allAsciiSpace_at (ws : string) (j : Z) :
  allAsciiSpace ws = true -> 0 <= j < len ws ->
  strings.asciiSpace (at_ ws j) = true.
Proof.
  revert j. induction ws as [|c ws IH]; intros j Hws Hj.
  - unfold len in Hj. simpl in Hj. lia.
  - simpl in Hws. apply andb_prop in Hws as [Hc Hr].
    destruct (Z.eq_dec j 0) as [->|Hne]; [exact Hc|].
    replace (at_ (String c ws) j) with (at_ ws (j - 1)).
    + apply IH; [assumption|]. unfold len in *. simpl in Hj. lia.
    + unfold at_. replace (Z.to_nat j) with (S (Z.to_nat (j - 1))) by lia.
      reflexivity.
Qed.

(** The first loop of [TrimSpace] stops at the first plain byte. *)
Lemma scanStart_spec (k fuel : nat) (s : string) (start : Z) :
  (forall j, start <= j < start + Z.of_nat k ->
     strings.asciiSpace (at_ s j) = true) ->
  start + Z.of_nat k < len s ->
  plainAscii (at_ s (start + Z.of_nat k)) ->
  (k < fuel)%nat ->
  strings.scanStart fuel s start = inr (start + Z.of_nat k).
Proof.
  revert fuel start. induction k as [|k IH]; intros fuel start Hsp Hlen Hp Hf;
    (destruct fuel as [|fuel]; [lia|]); cbn [strings.scanStart].
  - replace (start + Z.of_nat 0) with start in * by lia.
    destruct Hp as [Hlt Hns].
    destruct (len s <=? start) eqn:E1; [apply Z.leb_le in E1; lia|].
    destruct (utf8.RuneSelf <=? at_ s start) eqn:E2;
      [apply Z.leb_le in E2; lia|].
    now rewrite Hns.
  - destruct (len s <=? start) eqn:E1; [apply Z.leb_le in E1; lia|].
    assert (Hs : strings.asciiSpace (at_ s start) = true) by (apply Hsp; lia).
    pose proof (asciiSpace_ascii _ Hs) as Hlt.
    destruct (utf8.RuneSelf <=? at_ s start) eqn:E2;
      [apply Z.leb_le in E2; lia|].
    rewrite Hs. cbn [negb].
    rewrite (IH fuel (start + 1)); [f_equal; lia | | | | lia].
    + intros j Hj. apply Hsp. lia.
    + lia.
    + replace (start + 1 + Z.of_nat k) with (start + Z.of_nat (S k)) by lia.
      exact Hp.
Qed.

(** The second loop stops after the last plain byte. *)
Lemma scanStop_spec (k fuel : nat) (s : string) (start stop : Z) :
  (forall j, stop - Z.of_nat k <= j < stop ->
     strings.asciiSpace (at_ s j) = true) ->
  start < stop - Z.of_nat k ->
  plainAscii (at_ s (stop - Z.of_nat k - 1)) ->
  (k < fuel)%nat ->
  strings.scanStop fuel s start stop = inr (stop - Z.of_nat k).
Proof.
  revert fuel stop. induction k as [|k IH]; intros fuel stop Hsp Hlen Hp Hf;
    (destruct fuel as [|fuel]; [lia|]); cbn [strings.scanStop].
  - replace (stop - Z.of_nat 0) with stop in * by lia.
    destruct Hp as [Hlt Hns].
    destruct (stop <=? start) eqn:E1; [apply Z.leb_le in E1; lia|].
    destruct (utf8.RuneSelf <=? at_ s (stop - 1)) eqn:E2;
      [apply Z.leb_le in E2; lia|].
    now rewrite Hns.
  - destruct (stop <=? start) eqn:E1; [apply Z.leb_le in E1; lia|].
    assert (Hs : strings.asciiSpace (at_ s (stop - 1)) = true)
      by (apply Hsp; lia).
    pose proof (asciiSpace_ascii _ Hs) as Hlt.
    destruct (utf8.RuneSelf <=? at_ s (stop - 1)) eqn:E2;
      [apply Z.leb_le in E2; lia|].
    rewrite Hs. cbn [negb].
    rewrite (IH fuel (stop - 1)); [f_equal; lia | | | | lia].
    + intros j Hj. apply Hsp. lia.
    + lia.
    + replace (stop - 1 - Z.of_nat k - 1)
        with (stop - Z.of_nat (S k) - 1) by lia.
      exact Hp.
Qed.

Lemma substring_middle (a b c : string) :
  String.substring (String.length a) (String.length b) (a +:+ b +:+ c) = b.
Proof.
  induction a as [|x a IH].
  - rewrite append_nil_l. cbn [String.length].
    induction b as [|y b IHb]; [now destruct c|].
    rewrite append_cons. cbn [String.length String.substring].
    now rewrite IHb.
  - rewrite append_cons. cbn [String.length String.substring]. exact IH.
Qed.

(** [TrimSpace] of a text that starts and ends with plain ASCII bytes and
    is padded with ASCII white space gives the text back. *)
Lemma TrimSpace_padded (lead core trail : string) :
  allAsciiSpace lead = true -> allAsciiSpace trail = true ->
  core ≠ "" ->
  plainAscii (at_ core 0) -> plainAscii (at_ core (len core - 1)) ->
  strings.TrimSpace (lead +:+ core +:+ trail) = core.
Proof.
  intros Hl Ht Hc Hfirst Hlast.
  assert (Hcore : 0 < len core).
  { pose proof (len_nonneg core). destruct (Z.eq_dec (len core) 0) as [E|E];
      [apply len_zero in E; contradiction | lia]. }
  pose proof (len_nonneg lead) as Hl0. pose proof (len_nonneg trail) as Ht0.
  set (s := lead +:+ core +:+ trail).
  assert (Hlen : len s = len lead + len core + len trail)
    by (unfold s; rewrite !len_append; lia).
  assert (Hnat : Z.of_nat (String.length s) = len s) by reflexivity.
  unfold strings.TrimSpace.
  rewrite (scanStart_spec (String.length lead) (String.length s) s 0).
  - fold (len lead). replace (0 + len lead) with (len lead) by lia.
    rewrite (scanStop_spec (String.length trail) (String.length s) s
               (len lead) (len s)).
    + fold (len trail). unfold slice.
      replace (Z.to_nat (len s - len trail - len lead))
        with (String.length core) by (unfold len in *; lia).
      replace (Z.to_nat (len lead)) with (String.length lead)
        by (unfold len; lia).
      apply substring_middle.
    + intros j Hj. fold (len trail) in Hj. unfold s.
      rewrite at_app_r by lia. rewrite at_app_r by lia.
      apply allAsciiSpace_at; [assumption | lia].
    + fold (len trail). lia.
    + fold (len trail).
      replace (len s - len trail - 1) with (len lead + (len core - 1)) by lia.
      unfold s. rewrite at_app_r by lia. rewrite at_app_l by lia.
      replace (len lead + (len core - 1) - len lead) with (len core - 1)
        by lia.
      exact Hlast.
    + unfold len in *. lia.
  - intros j Hj. fold (len lead) in Hj. unfold s.
    rewrite at_app_l by lia. apply allAsciiSpace_at; [assumption | lia].
  - fold (len lead). lia.
  - fold (len lead). unfold s. rewrite at_app_r by lia.
    rewrite at_app_l by lia. replace (0 + len lead - len lead) with 0 by lia.
    exact Hfirst.
  - unfold len in *. lia.
Qed.

(** X10. The repository check tolerates ASCII white space around the
    answer: when [git rev-parse] succeeds and prints [true] preceded and
    followed by any number of tabs, newlines, vertical tabs, form feeds,
    carriage returns and spaces, the trimmed output is [true], the check
    passes and the diff is collected next. *)
Theorem repository_check_ignores_padding (w : World) (lead trail : string) :
  apiKey w ≠ "" ->
  allAsciiSpace lead = true -> allAsciiSpace trail = true ->
  command w "git" revParseArgs = (lead +:+ "true" +:+ trail, None) ->
  strings.TrimSpace (lead +:+ "true" +:+ trail) = "true"
  ∧ invocations (trace w) = [("git", revParseArgs); ("git", diffArgs)].
Proof.
  intros Hk Hl Ht Hc.
  assert (Htrim : strings.TrimSpace (lead +:+ "true" +:+ trail) = "true").
  { apply TrimSpace_padded; try assumption; try discriminate;
      split; reflexivity. }
  split; [exact Htrim|].
  apply invocations_past_check; rewrite ?Hc; cbn [fst snd]; auto.
Qed.

Lemma repository_check_ignores_padding_witness :
  strings.TrimSpace ((" " +:+ CR +:+ LF) +:+ "true" +:+ (CR +:+ LF)) = "true"
  ∧ invocations (trace paddedTrue)
    = [("git", revParseArgs); ("git", diffArgs)].
Proof.
  apply (repository_check_ignores_padding paddedTrue (" " +:+ CR +:+ LF)
           (CR +:+ LF)); [discriminate | reflexivity | reflexivity | reflexivity].
Defined.

(** ** The wait group and the end of the two tasks *)

(** X11. In every reachable configuration of the two tasks the counter of
    the wait group is 0 or 1; it is 1 whenever the deferred [wg.Done()]
    is due, so the counter never becomes negative; and it is 0 only
    before [wg.Add(1)] or after the spinner task has finished, so
    [wg.Wait()] cannot return while the task is running. *)
Theorem wait_group_counter_in_range (w : World)
    (geminiApiKey promptText : string) (c : Await.Conf) :
  Await.reachable w geminiApiKey promptText c ->
  (Await.wg c = 0 ∨ Await.wg c = 1)
  ∧ (Await.spinnerPc c = Await.AtWgDone -> Await.wg c = 1)
  ∧ (Await.wg c = 0 ->
     Await.mainPc c = Await.AtAdd ∨ Await.spinnerPc c = Await.Finished).
Proof.
  intros Hreach. apply joinInvariant_reachable in Hreach.
  destruct Hreach as [Hs _]. unfold beforeBarrier in Hs.
  destruct (Await.spinnerPc c); naive_solver lia.
Qed.

Lemma wait_group_counter_in_range_witness :
  (Await.wg joinedA = 0 ∨ Await.wg joinedA = 1)
  ∧ (Await.spinnerPc joinedA = Await.AtWgDone -> Await.wg joinedA = 1)
  ∧ (Await.wg joinedA = 0 ->
     Await.mainPc joinedA = Await.AtAdd
     ∨ Await.spinnerPc joinedA = Await.Finished).
Proof.
  apply (wait_group_counter_in_range scenarioA "secret"
           (promptText scenarioA) joinedA).
  apply joined_reachable.
Defined.

(** Takes the steps of both tasks that lead to the exit of [main]; the
    ticker is not waited for. *)
Ltac run_to_exit Hgen :=
  lazymatch goal with
  | |- rtc _ (Await.Build_Conf Await.Gone _ _ _ _ _ _) _ => apply rtc_refl
  | |- _ =>
      eapply rtc_l;
      [ first
          [ apply Await.main_add | apply Await.main_go
          | apply Await.main_call | apply Await.main_called
          | apply Await.main_cancel | apply Await.main_wait
          | apply Await.main_fatal | apply Await.main_println
          | apply Await.spinner_first; discriminate
          | apply Await.spinner_done; discriminate
          | apply Await.spinner_wg_done; discriminate ]
      | rewrite ?Hgen; run_to_exit Hgen ]
  end.

(** X12. The two tasks cannot block each other: from every reachable
    configuration there are steps that bring [main] to its exit, in
    particular [wg.Wait()] is never left waiting for a task that cannot
    finish; and once [main] has left the process no step of either task
    is possible, so nothing is written after the report. *)
Theorem join_always_completes (w : World)
    (geminiApiKey promptText : string) (c : Await.Conf) :
  Await.reachable w geminiApiKey promptText c ->
  (exists c', rtc (Await.step w geminiApiKey promptText) c c'
              ∧ Await.mainPc c' = Await.Gone)
  ∧ (Await.mainPc c = Await.Gone ->
     forall c', ¬ Await.step w geminiApiKey promptText c c').
Proof.
  intros Hreach. split.
  - apply joinInvariant_reachable in Hreach.
    destruct c as [mp sp n d k a o]. unfold_conf.
    destruct Hreach as [Hs Ha].
    destruct (generateContent w geminiApiKey geminiModel promptText)
      as [result [e|]] eqn:Hgen.
    all: destruct sp;
      repeat match goal with
      | H : _ ∧ _ |- _ => destruct H
      | H : exists _, _ |- _ => destruct H
      | H : _ ∨ _ |- _ => destruct H
      end; subst; try discriminate;
      try (rewrite Ha by auto);
      eexists; (split; [run_to_exit Hgen | reflexivity]).
  - intros Hg c' Hstep. destruct Hstep; cbn in Hg; try discriminate;
      contradiction.
Qed.

Lemma join_always_completes_witness :
  (exists c', rtc (Await.step scenarioA "secret" (promptText scenarioA))
                Await.initial c'
              ∧ Await.mainPc c' = Await.Gone)
  ∧ (Await.mainPc joinedA = Await.Gone ->
     forall c', ¬ Await.step scenarioA "secret" (promptText scenarioA)
                  joinedA c').
Proof.
  split.
  - apply (join_always_completes scenarioA "secret" (promptText scenarioA)
             Await.initial). apply Await.reach_initial.
  - apply (join_always_completes scenarioA "secret" (promptText scenarioA)
             joinedA). apply joined_reachable.
Defined.

(** ** What the ticker cannot change *)

(** X13. The spinner is cosmetic: the number of ticks that happen to fall
    into a run changes neither what is written to standard output nor the
    exit status, nor the commands run, the prompt composed or the call
    made to the service. *)
Theorem spinner_is_cosmetic (w : World) (n : nat) :
  stdout (withTicks w n) = stdout w
  ∧ exitCode (withTicks w n) = exitCode w
  ∧ invocations (trace (withTicks w n)) = invocations (trace w)
  ∧ composed (trace (withTicks w n)) = composed (trace w)
  ∧ generations (trace (withTicks w n)) = generations (trace w).
Proof.
  unfold stdout, exitCode, trace. rewrite !run_outcome. unfold outcome.
  change (apiKey (withTicks w n)) with (apiKey w).
  cbn [withTicks environ Args command clock newClient generateContent ticks].
  destruct (decide (apiKey w = "")); [repeat split|].
  destruct (command w "git" revParseArgs) as [inside [e1|]]; [repeat split|].
  destruct (decide (strings.TrimSpace inside ≠ "true")); [repeat split|].
  destruct (command w "git" diffArgs) as [stagedDiff [e2|]]; [repeat split|].
  destruct (decide (len stagedDiff = 0)); [repeat split|].
  destruct (newClient w (apiKey w)) as [e3|]; [repeat split|].
  destruct (generateContent w (apiKey w) geminiModel _) as [result [e|]];
    cbn [fst snd];
    rewrite !written_app, !invocations_app, !composed_app, !generations_app;
    cbn [written invocations composed generations];
    rewrite !written_stdout_stderr, !invocations_writes, !composed_writes,
      !generations_writes;
    repeat split.
Qed.

(** ** Arguments and the hint *)

Lemma Join_space_split (before after : list string) (a b : string) :
  strings.Join (before ++ (a +:+ " " +:+ b) :: after) " "
  = strings.Join (before ++ a :: b :: after) " ".
Proof.
  induction before as [|x before IH].
  - cbn [app]. destruct after as [|y after]; cbn [strings.Join].
    + reflexivity.
    + now rewrite !append_assoc.
  - cbn [app].
    destruct (before ++ (a +:+ " " +:+ b) :: after) as [|y l] eqn:E1;
      [now destruct before|].
    destruct (before ++ a :: b :: after) as [|y' l'] eqn:E2;
      [now destruct before|].
    cbn [strings.Join]. cbn [strings.Join] in IH. now rewrite IH.
Qed.

(** X14. The hint does not keep the boundaries of the arguments: an
    argument that contains a space gives the same hint paragraph as the
    two arguments obtained by splitting it at that space, wherever it
    stands among the arguments; and the program name is not part of the
    hint. *)
Theorem hint_forgets_argument_boundaries
    (program program' : string) (before after : list string) (a b : string) :
  additionalContext (program :: before ++ (a +:+ " " +:+ b) :: after)
  = additionalContext (program' :: before ++ a :: b :: after).
Proof.
  unfold additionalContext. cbn [length skipn].
  rewrite !length_app. cbn [length].
  destruct (decide (1 < S (length before + S (length after)))%nat); [|lia].
  destruct (decide (1 < S (length before + S (S (length after))))%nat); [|lia].
  rewrite !drop_0. now rewrite Join_space_split.
Qed.

(** ** What an accepted answer must contain *)

Lemma partOf_refl (s : string) : partOf s s.
Proof. exists "", "". now rewrite append_nil_r. Qed.

Lemma partOf_empty (s : string) : partOf "" s.
Proof. exists "", s. reflexivity. Qed.

Lemma partOf_trans (a b c : string) : partOf a b -> partOf b c -> partOf a c.
Proof.
  intros (l1 & t1 & ->) (l2 & t2 & ->).
  exists (l2 +:+ l1), (t1 +:+ t2). now rewrite !append_assoc.
Qed.

Lemma substring_prefix (m : nat) (s : string) :
  exists trail, s = String.substring 0 m s +:+ trail.
Proof.
  revert m. induction s as [|c s IH]; intros [|m]; simpl.
  - now exists "".
  - now exists "".
  - now exists (String c s).
  - destruct (IH m) as (trail & Ht). exists trail.
    rewrite append_cons. now rewrite <- Ht.
Qed.

Lemma substring_partOf (n m : nat) (s : string) :
  partOf (String.substring n m s) s.
Proof.
  revert n. induction s as [|c s IH]; intros n.
  - destruct n, m; simpl; apply partOf_refl || apply partOf_empty.
  - destruct n as [|n].
    + destruct (substring_prefix m (String c s)) as (trail & Ht).
      exists "", trail. exact Ht.
    + cbn [String.substring]. destruct (IH n) as (lead & trail & Hs).
      exists (String c lead), trail. rewrite append_cons. now rewrite <- Hs.
Qed.

Lemma slice_partOf (s : string) (i j : Z) : partOf (slice s i j) s.
Proof. apply substring_partOf. Qed.

(** [TrimSpace] returns a contiguous part of its argument. *)
Lemma TrimSpace_partOf (s : string) : partOf (strings.TrimSpace s) s.
Proof.
  assert (Hleft : forall t f, partOf (strings.TrimLeftFunc t f) t).
  { intros t f. unfold strings.TrimLeftFunc.
    destruct (_ =? _); [apply partOf_empty | apply slice_partOf]. }
  assert (Hright : forall t f, partOf (strings.TrimRightFunc t f) t).
  { intros t f. unfold strings.TrimRightFunc. apply slice_partOf. }
  unfold strings.TrimSpace.
  destruct (strings.scanStart _ s 0) as [start|start].
  - unfold strings.TrimFunc.
    eapply partOf_trans; [apply Hright|].
    eapply partOf_trans; [apply Hleft | apply slice_partOf].
  - destruct (strings.scanStop _ s start (len s)) as [stop|stop].
    + eapply partOf_trans; [apply Hright | apply slice_partOf].
    + apply slice_partOf.
Qed.

(** X15. The diff is collected only for an answer that contains the word:
    in every run in which [git rev-parse] succeeds and [git diff] is
    run, the output of [git rev-parse] contains the text [true] as a
    contiguous part, the rest of the output lying before and after it. *)
Theorem accepted_answer_contains_true (w : World) (output : string) :
  command w "git" revParseArgs = (output, None) ->
  ("git", diffArgs) ∈ invocations (trace w) ->
  exists lead trail, output = lead +:+ "true" +:+ trail.
Proof.
  intros Hc Hin.
  assert (Ht : strings.TrimSpace output = "true").
  { revert Hin. unfold trace. rewrite run_outcome. unfold outcome.
    rewrite Hc.
    destruct (decide (apiKey w = "")).
    { cbn. intros H. now apply elem_of_nil in H. }
    destruct (decide (strings.TrimSpace output ≠ "true")) as [Hne|He].
    { cbn. intros H. apply list_elem_of_singleton in H. discriminate. }
    intros _. destruct (decide (strings.TrimSpace output = "true")); tauto. }
  pose proof (TrimSpace_partOf output) as Hp. rewrite Ht in Hp. exact Hp.
Qed.

Lemma accepted_answer_contains_true_witness :
  exists lead trail,
    " " +:+ CR +:+ LF +:+ "true" +:+ CR +:+ LF = lead +:+ "true" +:+ trail.
Proof.
  apply (accepted_answer_contains_true paddedTrue).
  - reflexivity.
  - vm_compute. apply list_elem_of_further, list_elem_of_here.
Defined.
